(** * Meme editor: crop-region engine and text-layout renderer

    A shallow embedding of the two algorithmic pieces of the editor:

    - [ImageCropper]: the display-to-source coordinate transform and the
      drag / resize handlers that move the square selection;
    - [wrapText] (the copy in [MemePreview] and the textually identical copy
      in [FloatingPreview]): greedy, character-granular line wrapping followed
      by the bottom-up stroke/fill loop;
    - the render effects of [MemePreview] and [FloatingPreview] as the list
      of calls they make on the 2D context, and the effect of [ImageCropper]
      that reports the selection.

    Numbers.  The source computes with JavaScript numbers.  They are modelled
    here as exact rationals ([Q], compared with [==]): [Math.max] and
    [Math.min] are [Qmax] and [Qmin], the literals [0.8], [0.9], [1.2] are
    [8/10], [9/10], [12/10].  Rounding, infinities and NaN are outside that
    model.  Where rounding decides which way a comparison of the source
    goes (the position re-clamp after a resize), the same code is also given
    over binary64 numbers ([float]), with the suffix [_double].

    Strings.  A JavaScript string is a sequence of UTF-16 code units and
    [text.split('')] yields one element per code unit, so a string is a
    [list code_unit] and [line + characters[n]] is [line ++ [c]]. *)

From Stdlib Require Import Floats.
From Stdlib Require Import String Ascii.
From Stdlib Require Import QArith Qminmax Lqa Lia List Bool Arith ZArith Znat.
Import ListNotations.

Open Scope Q_scope.

(** ** Data *)

Record Point : Type := mkPoint { px : Q; py : Q }.

(** [{ x, y, width, height }]: the crop box (display space) and [CropData]
    (source space) have the same shape. *)
Record Rect : Type := mkRect { x : Q; y : Q; width : Q; height : Q }.

(** Field-wise numeric equality of rectangles. *)
Definition rect_eq (a b : Rect) : Prop :=
  x a == x b /\ y a == y b /\ width a == width b /\ height a == height b.

(** The part of the [<img>] element and of its container the handlers read. *)
Record ImgEl : Type := mkImg {
  naturalWidth : Q; naturalHeight : Q;
  clientWidth : Q; clientHeight : Q
}.

Record Container : Type := mkContainer {
  containerWidth : Q; containerHeight : Q
}.

Inductive Action : Type := drag | resize.

Definition MIN_CROP_SIZE : Q := 50.

(** The [useState] cells of [ImageCropper]. *)
Record Cropper : Type := mkCropper {
  cropBox : Rect;
  isDragging : bool;
  isResizing : bool;
  startPos : Point;
  scale : Point;
  imageOffset : Point
}.

(** Initial values of the [useState] cells. *)
Definition initialCropper : Cropper :=
  mkCropper (mkRect 0 0 MIN_CROP_SIZE MIN_CROP_SIZE) false false
            (mkPoint 0 0) (mkPoint 1 1) (mkPoint 0 0).

Definition set_cropBox (s : Cropper) (r : Rect) : Cropper :=
  mkCropper r (isDragging s) (isResizing s) (startPos s) (scale s) (imageOffset s).

Definition set_startPos (s : Cropper) (p : Point) : Cropper :=
  mkCropper (cropBox s) (isDragging s) (isResizing s) p (scale s) (imageOffset s).

(** ** Coordinate transform *)

(** [convertDisplayToSourceCrop], closed over [scale] and [imageOffset]. *)
Definition convertDisplayToSourceCrop (scale imageOffset : Point) (displayCrop : Rect) : Rect :=
  mkRect ((x displayCrop - px imageOffset) * px scale)
         ((y displayCrop - py imageOffset) * py scale)
         (width displayCrop * px scale)
         (height displayCrop * py scale).

Definition Qeq_zero (q : Q) : bool := Qeq_bool q 0.

(** [handleImageLoad]: [None] for the container models a null
    [containerRef.current]; both early returns leave the state as it was. *)
Definition handleImageLoad (img : ImgEl) (container : option Container) (s : Cropper) : Cropper :=
  match container with
  | None => s
  | Some c =>
    let renderedWidth := clientWidth img in
    let renderedHeight := clientHeight img in
    if Qeq_zero renderedWidth || Qeq_zero renderedHeight then s
    else
      let scale' := mkPoint (naturalWidth img / renderedWidth)
                            (naturalHeight img / renderedHeight) in
      let offsetX := (containerWidth c - renderedWidth) / 2 in
      let offsetY := (containerHeight c - renderedHeight) / 2 in
      let size := Qmin renderedWidth renderedHeight * (8 # 10) in
      let initialCrop := mkRect (offsetX + (renderedWidth - size) / 2)
                                (offsetY + (renderedHeight - size) / 2)
                                size size in
      mkCropper initialCrop (isDragging s) (isResizing s) (startPos s)
                scale' (mkPoint offsetX offsetY)
  end.

(** ** Crop state machine *)

(** [handleInteractionStart]; the pointer position is what [getEventPos]
    returned for the event. *)
Definition handleInteractionStart (pos : Point) (action : Action) (s : Cropper) : Cropper :=
  match action with
  | drag => mkCropper (cropBox s) true (isResizing s) pos (scale s) (imageOffset s)
  | resize => mkCropper (cropBox s) (isDragging s) true pos (scale s) (imageOffset s)
  end.

(** The functional updater handed to [setCropBox] inside
    [handleInteractionMove]. *)
Definition moveUpdater (isResizing isDragging : bool) (imageOffset : Point)
    (imageClientWidth imageClientHeight deltaX deltaY : Q) (prev : Rect) : Rect :=
  let newCrop :=
    if isResizing then
      let delta := Qmax deltaX deltaY in
      let newSize := width prev + delta in
      let newSize := Qmax MIN_CROP_SIZE newSize in
      let maxAllowedSizeX := (px imageOffset + imageClientWidth) - x prev in
      let maxAllowedSizeY := (py imageOffset + imageClientHeight) - y prev in
      let newSize := Qmin (Qmin newSize maxAllowedSizeX) maxAllowedSizeY in
      mkRect (x prev) (y prev) newSize newSize
    else if isDragging then
      mkRect (x prev + deltaX) (y prev + deltaY) (width prev) (height prev)
    else prev in
  let minX := px imageOffset in
  let minY := py imageOffset in
  let maxX := px imageOffset + imageClientWidth - width newCrop in
  let maxY := py imageOffset + imageClientHeight - height newCrop in
  mkRect (Qmax minX (Qmin (x newCrop) maxX))
         (Qmax minY (Qmin (y newCrop) maxY))
         (width newCrop) (height newCrop).

(** [handleInteractionMove]; [img = None] models a null [imageRef.current].
    The handler reads [startPos], the two flags and [imageOffset] from the
    render it was created in and hands the updater to [setCropBox]; here each
    event is handled after the render the event before it caused, so these
    values and the crop box belong to the same state. *)
Definition handleInteractionMove (img : option ImgEl) (pos : Point) (s : Cropper) : Cropper :=
  if negb (isDragging s) && negb (isResizing s) then s
  else
    match img with
    | None => s
    | Some el =>
      let deltaX := px pos - px (startPos s) in
      let deltaY := py pos - py (startPos s) in
      let box := moveUpdater (isResizing s) (isDragging s) (imageOffset s)
                             (clientWidth el) (clientHeight el) deltaX deltaY
                             (cropBox s) in
      set_startPos (set_cropBox s box) pos
    end.

Definition handleInteractionEnd (s : Cropper) : Cropper :=
  mkCropper (cropBox s) false false (startPos s) (scale s) (imageOffset s).

(** Pointer events delivered to the component. *)
Inductive PointerEvent : Type :=
| EvStart (pos : Point) (action : Action)
| EvMove (pos : Point)
| EvEnd.

Definition step (img : option ImgEl) (s : Cropper) (e : PointerEvent) : Cropper :=
  match e with
  | EvStart pos action => handleInteractionStart pos action s
  | EvMove pos => handleInteractionMove img pos s
  | EvEnd => handleInteractionEnd s
  end.

(** The states visited while the events are handled one after the other,
    the starting state excluded. *)
Fixpoint trace (img : option ImgEl) (s : Cropper) (es : list PointerEvent) : list Cropper :=
  match es with
  | [] => []
  | e :: es' => let s' := step img s e in s' :: trace img s' es'
  end.

(** The invariant of the display-space crop rectangle. *)
Definition cropSquare (r : Rect) : Prop := width r == height r.
Definition cropMinSize (r : Rect) : Prop := MIN_CROP_SIZE <= width r.
Definition cropInside (offset : Point) (renderedWidth renderedHeight : Q) (r : Rect) : Prop :=
  px offset <= x r /\ py offset <= y r /\
  x r + width r <= px offset + renderedWidth /\
  y r + height r <= py offset + renderedHeight.

Definition cropValid (offset : Point) (renderedWidth renderedHeight : Q) (r : Rect) : Prop :=
  cropSquare r /\ cropMinSize r /\ cropInside offset renderedWidth renderedHeight r.

(** ** Text layout *)

Definition code_unit : Type := N.
Definition jsstring : Type := list code_unit.

(** The calls made on the 2D context by the text loop, in order. *)
Inductive DrawCall : Type :=
| StrokeText (s : jsstring) (tx ty : Q)
| FillText (s : jsstring) (tx ty : Q).

(** [a > b] on numbers. *)
Definition Qgt_bool (a b : Q) : bool := negb (Qle_bool a b).

Section WrapText.

(** [ctx.measureText(s).width] under the font the caller has set. *)
Variable measureText : jsstring -> Q.

(** The first loop of [wrapText]: [characters] is what is left of
    [text.split('')] from index [n] on; the result is the final
    [(line, lines)]. *)
Fixpoint wrapLoop (maxWidth : Q) (n : nat) (characters : list code_unit)
    (line : jsstring) (lines : list jsstring) : jsstring * list jsstring :=
  match characters with
  | [] => (line, lines)
  | c :: rest =>
    let testLine := line ++ [c] in
    let testWidth := measureText testLine in
    if Qgt_bool testWidth maxWidth && (0 <? n)%nat
    then wrapLoop maxWidth (S n) rest [c] (lines ++ [line])
    else wrapLoop maxWidth (S n) rest testLine lines
  end.

(** [lines] after the loop and the final [lines.push(line)]. *)
Definition wrapLines (text : jsstring) (maxWidth : Q) : list jsstring :=
  let '(line, lines) := wrapLoop maxWidth 0 text [] [] in
  lines ++ [line].

(** The second loop: [k] is [i + 1], so the loop runs while [k > 0]. *)
Fixpoint drawLoop (lines : list jsstring) (x lineHeight : Q) (k : nat)
    (currentY : Q) : list DrawCall :=
  match k with
  | O => []
  | S i =>
    StrokeText (nth i lines []) x currentY
    :: FillText (nth i lines []) x currentY
    :: drawLoop lines x lineHeight i (currentY - lineHeight)
  end.

Definition wrapText (text : jsstring) (x y maxWidth lineHeight : Q) : list DrawCall :=
  let lines := wrapLines text maxWidth in
  drawLoop lines x lineHeight (length lines) y.

(** The text part of [img.onload] in [MemePreview]. *)
Definition MemePreview_drawText (canvasWidth canvasHeight : Q) (text : jsstring)
    (fontSize textYOffset : Q) : list DrawCall :=
  let calculatedFontSize := fontSize in
  let x := canvasWidth / 2 in
  let y := canvasHeight - textYOffset in
  let maxWidth := canvasWidth * (9 # 10) in
  let lineHeight := calculatedFontSize * (12 # 10) in
  wrapText text x y maxWidth lineHeight.

(** The wrap rule in the words of the specification: the character joins
    the current line when the candidate does not exceed [maxWidth] or the
    current line is empty; otherwise the line is pushed and a new one
    starts with the character. *)
Definition isEmptyLine (line : jsstring) : bool :=
  match line with [] => true | _ => false end.

Definition specWrapStep (maxWidth : Q) (st : jsstring * list jsstring)
    (c : code_unit) : jsstring * list jsstring :=
  let '(line, lines) := st in
  let candidate := line ++ [c] in
  if Qle_bool (measureText candidate) maxWidth || isEmptyLine line
  then (candidate, lines)
  else ([c], lines ++ [line]).

Definition specWrapLoop (maxWidth : Q) (text : jsstring) : jsstring * list jsstring :=
  fold_left (specWrapStep maxWidth) text ([], []).

End WrapText.

Definition PREVIEW_SIZE : Q := 512.

(** The vertical position of line [i] of [n] lines when the last one sits at
    [y] and the lines are [lineHeight] apart. *)
Definition lineY (y lineHeight : Q) (n i : nat) : Q :=
  y - inject_Z (Z.of_nat (n - 1 - i)) * lineHeight.

(** A measure that gives every code unit the same advance. *)
Definition fixedAdvance (w : Q) (s : jsstring) : Q :=
  inject_Z (Z.of_nat (length s)) * w.

(** A line is settled when it fits or is a single character. *)
Definition settled (measureText : jsstring -> Q) (maxWidth : Q) (l : jsstring) : Prop :=
  measureText l <= maxWidth \/ length l = 1%nat.

(** A line is stable when wrapping it alone gives it back unbroken. *)
Definition stable (measureText : jsstring -> Q) (maxWidth : Q) (l : jsstring) : Prop :=
  specWrapLoop measureText maxWidth l = (l, []).


(** The default text of the editor, three code units. *)
Definition defaultText : jsstring := [20320%N; 22909%N; 21568%N].

(** ** The rest of [ImageCropper] *)

(** The effect that reports the selection: [onCropChange] is called with the
    converted crop box when [cropBox.width > 0] and the image is complete;
    [complete] is the truth value of [imageRef.current?.complete]. *)
Definition cropChangeEffect (complete : bool) (s : Cropper) : option Rect :=
  if Qgt_bool (width (cropBox s)) 0 && complete
  then Some (convertDisplayToSourceCrop (scale s) (imageOffset s) (cropBox s))
  else None.

(** The state after a whole list of events. *)
Definition run (img : option ImgEl) (s : Cropper) (es : list PointerEvent) : Cropper :=
  fold_left (step img) es s.

Definition isMove (e : PointerEvent) : bool :=
  match e with EvMove _ => true | _ => false end.

(** ** The preview effects *)

(** A string literal of the source as code units. *)
Definition literal (s : string) : jsstring :=
  map N_of_ascii (list_ascii_of_string s).

(** What the effects do to the 2D context, in order.  [SetFont] keeps the
    pixel size as a number: ['20px sans-serif'] is [SetFont false 20 _] and
    [`bold ${n}px Impact, sans-serif`] is [SetFont true n _]. *)
Inductive CanvasOp : Type :=
| SetFillStyle (color : string)
| SetStrokeStyle (color : string)
| SetFont (bold : bool) (pixels : Q) (family : string)
| SetLineWidth (w : Q)
| SetTextAlign (a : string)
| SetTextBaseline (b : string)
| FillRect (rx ry rw rh : Q)
| DrawImage (sx sy sw sh dx dy dw dh : Q)
| Text (c : DrawCall).

(** How the [Image] created by an effect ends up: [onload] fired, [onerror]
    fired, or neither yet. *)
Inductive LoadOutcome : Type := Loaded | Failed | Pending.

(** [!imageSrc] for [imageSrc : string | null]: null and the empty string
    are falsy. *)
Definition srcPresent (imageSrc : option string) : bool :=
  match imageSrc with
  | Some (String _ _) => true
  | _ => false
  end.

(** [!crop || crop.width === 0 || crop.height === 0]. *)
Definition cropMissing (crop : option Rect) : bool :=
  match crop with
  | None => true
  | Some c => Qeq_zero (width c) || Qeq_zero (height c)
  end.

(** The render effect of [MemePreview]; [hasCanvas] is false when the canvas
    or its context is missing, and [measureFont n s] is the width
    [measureText] reports for [s] under the bold font of [n] pixels. *)
Definition MemePreview_effect (measureFont : Q -> jsstring -> Q) (hasCanvas : bool)
    (canvasWidth canvasHeight : Q) (imageSrc : option string) (crop : option Rect)
    (outcome : LoadOutcome) (text : jsstring) (fontSize textYOffset : Q)
    : list CanvasOp :=
  if negb hasCanvas then []
  else
    [SetFillStyle "#2d3748"; FillRect 0 0 canvasWidth canvasHeight]
    ++
    if negb (srcPresent imageSrc) || cropMissing crop then
      [SetFillStyle "#a0aec0"; SetFont false 20 "sans-serif"; SetTextAlign "center";
       Text (FillText (literal "Your meme will appear here")
                      (canvasWidth / 2) (canvasHeight / 2))]
    else
      match crop, outcome with
      | Some c, Loaded =>
        let calculatedFontSize := fontSize in
        [DrawImage (x c) (y c) (width c) (height c) 0 0 canvasWidth canvasHeight;
         SetFont true calculatedFontSize "Impact, sans-serif";
         SetFillStyle "white"; SetStrokeStyle "black";
         SetLineWidth (calculatedFontSize / 15);
         SetTextAlign "center"; SetTextBaseline "bottom"]
        ++ map Text (MemePreview_drawText (measureFont calculatedFontSize)
                       canvasWidth canvasHeight text fontSize textYOffset)
      | Some c, Failed =>
        [SetFillStyle "#f56565"; SetFont false 20 "sans-serif"; SetTextAlign "center";
         Text (FillText (literal "Error loading image")
                        (canvasWidth / 2) (canvasHeight / 2))]
      | _, _ => []
      end.

(** The text part of [img.onload] in the earlier [MemePreview], which draws
    the text unwrapped. *)
Definition MemePreview_drawText_unwrapped (canvasWidth canvasHeight : Q)
    (text : jsstring) (fontSize textYOffset : Q) : list DrawCall :=
  let x := canvasWidth / 2 in
  let y := canvasHeight - textYOffset in
  [StrokeText text x y; FillText text x y].

(** Constants of [FloatingPreview]; its [PREVIEW_SIZE] is 176. *)
Definition Floating_PREVIEW_SIZE : Q := 176.
Definition BASE_SIZE : Q := 512.
Definition scaleFactor : Q := Floating_PREVIEW_SIZE / BASE_SIZE.

(** The text part of [img.onload] in [FloatingPreview]. *)
Definition FloatingPreview_drawText (measureText : jsstring -> Q)
    (canvasWidth canvasHeight : Q) (text : jsstring) (fontSize textYOffset : Q)
    : list DrawCall :=
  let scaledFontSize := fontSize * scaleFactor in
  let x := canvasWidth / 2 in
  let y := canvasHeight - textYOffset * scaleFactor in
  let maxWidth := canvasWidth * (9 # 10) in
  let lineHeight := scaledFontSize * (12 # 10) in
  wrapText measureText text x y maxWidth lineHeight.

(** The render effect of [FloatingPreview]: it returns before touching the
    canvas when anything is missing and has no [onerror] handler. *)
Definition FloatingPreview_effect (measureFont : Q -> jsstring -> Q) (hasCanvas : bool)
    (canvasWidth canvasHeight : Q) (imageSrc : option string) (crop : option Rect)
    (outcome : LoadOutcome) (text : jsstring) (fontSize textYOffset : Q)
    : list CanvasOp :=
  if negb hasCanvas || negb (srcPresent imageSrc) || cropMissing crop then []
  else
    match crop, outcome with
    | Some c, Loaded =>
      let scaledFontSize := fontSize * scaleFactor in
      [SetFillStyle "#1a202c"; FillRect 0 0 canvasWidth canvasHeight;
       DrawImage (x c) (y c) (width c) (height c) 0 0 canvasWidth canvasHeight;
       SetFont true scaledFontSize "Impact, sans-serif";
       SetFillStyle "white"; SetStrokeStyle "black";
       SetLineWidth (scaledFontSize / 15);
       SetTextAlign "center"; SetTextBaseline "bottom"]
      ++ map Text (FloatingPreview_drawText (measureFont scaledFontSize)
                     canvasWidth canvasHeight text fontSize textYOffset)
    | _, _ => []
    end.

(** ** Reading the context calls *)

Definition isStroke (op : CanvasOp) : bool :=
  match op with Text (StrokeText _ _ _) => true | _ => false end.

Definition isDrawImage (op : CanvasOp) : bool :=
  match op with DrawImage _ _ _ _ _ _ _ _ => true | _ => false end.

(** The same call with its coordinates multiplied by [k]. *)
Definition scaleCall (k : Q) (c : DrawCall) : DrawCall :=
  match c with
  | StrokeText s tx ty => StrokeText s (k * tx) (k * ty)
  | FillText s tx ty => FillText s (k * tx) (k * ty)
  end.

(** The same kind of call with the same text at numerically equal
    coordinates. *)
Definition call_eq (a b : DrawCall) : Prop :=
  match a, b with
  | StrokeText s tx ty, StrokeText s' tx' ty' => s = s' /\ tx == tx' /\ ty == ty'
  | FillText s tx ty, FillText s' tx' ty' => s = s' /\ tx == tx' /\ ty == ty'
  | _, _ => False
  end.

(** Every break between two consecutive lines was forced; the list runs
    from the current line back to the first one. *)
Fixpoint forcedBreaks (measureText : jsstring -> Q) (maxWidth : Q)
    (newestFirst : list jsstring) : Prop :=
  match newestFirst with
  | b :: ((a :: _) as older) =>
    (exists c r, b = c :: r /\ ~ measureText (a ++ [c]) <= maxWidth) /\
    forcedBreaks measureText maxWidth older
  | _ => True
  end.

(** ** The resize in binary64 arithmetic *)









(** ** Scenarios *)

(** The 1000x800 image laid out at 400x320 inside a 400x400 container. *)
Definition scenarioImg : ImgEl := mkImg 1000 800 400 320.
Definition scenarioContainer : Container := mkContainer 400 400.
Definition scenarioLoaded : Cropper :=
  handleImageLoad scenarioImg (Some scenarioContainer) initialCropper.

(** A drag past the right edge and back, a release, then a resize far past
    the corner and back below the minimum, starting from the selection
    (100,100,100,100) on a 400x400 image. *)
Definition dragResizeImg : ImgEl := mkImg 400 400 400 400.
Definition dragResizeStart : Cropper :=
  mkCropper (mkRect 100 100 100 100) false false
            (mkPoint 0 0) (mkPoint 1 1) (mkPoint 0 0).
Definition dragResizeEvents : list PointerEvent :=
  [ EvStart (mkPoint 150 150) drag; EvMove (mkPoint 900 155);
    EvMove (mkPoint 800 155); EvEnd;
    EvStart (mkPoint 300 205) resize; EvMove (mkPoint 900 215);
    EvMove (mkPoint 0 0); EvEnd ].

(** A 50x50 image shown at its natural size: the initial selection is
    (5,5,40,40), and the resize handle is pressed and moved by nothing. *)
Definition tinyImg : ImgEl := mkImg 50 50 50 50.
Definition tinyLoaded : Cropper :=
  handleImageLoad tinyImg (Some (mkContainer 50 50)) initialCropper.
Definition tinyResized : Cropper :=
  handleInteractionMove (Some tinyImg) (mkPoint 45 45)
    (handleInteractionStart (mkPoint 45 45) resize tinyLoaded).

(** A resize pulled back by (110,150) from (100,100,100,100) on a 400x400
    image: the cap is 300 and the side stops at the minimum. *)
Definition shrinkStart : Cropper :=
  mkCropper (mkRect 100 100 100 100) false true
            (mkPoint 200 200) (mkPoint 1 1) (mkPoint 0 0).

(** * Proofs *)

(** ** Arithmetic of [Math.max] / [Math.min] *)

(** Replaces every [Qmax] / [Qmin] by a fresh number together with its
    two-case characterisation, innermost first. *)
Ltac name_minmax :=
  repeat match goal with
  | |- context [Qmax ?a ?b] =>
      lazymatch a with context [Qmax _ _] => fail | context [Qmin _ _] => fail | _ => idtac end;
      lazymatch b with context [Qmax _ _] => fail | context [Qmin _ _] => fail | _ => idtac end;
      let H := fresh "Hmax" in let m := fresh "m" in
      pose proof (Q.max_spec a b) as H;
      set (m := Qmax a b) in *; clearbody m
  | |- context [Qmin ?a ?b] =>
      lazymatch a with context [Qmax _ _] => fail | context [Qmin _ _] => fail | _ => idtac end;
      lazymatch b with context [Qmax _ _] => fail | context [Qmin _ _] => fail | _ => idtac end;
      let H := fresh "Hmin" in let m := fresh "m" in
      pose proof (Q.min_spec a b) as H;
      set (m := Qmin a b) in *; clearbody m
  end.

Ltac minmax_lra := name_minmax; lra.

(** ** The move updater *)

Section MoveUpdater.

Variables (offset : Point) (iw ih dx dy : Q) (prev : Rect).

Lemma resize_size (dragging : bool) :
  width (moveUpdater true dragging offset iw ih dx dy prev)
  == Qmin (Qmax MIN_CROP_SIZE (width prev + Qmax dx dy))
          (Qmin (px offset + iw - x prev) (py offset + ih - y prev)).
Proof. unfold moveUpdater, MIN_CROP_SIZE; simpl. minmax_lra. Qed.

Lemma moveUpdater_valid (resizing dragging : bool) :
  cropValid offset iw ih prev ->
  cropValid offset iw ih (moveUpdater resizing dragging offset iw ih dx dy prev).
Proof.
  unfold cropValid, cropSquare, cropMinSize, cropInside, MIN_CROP_SIZE.
  intros (Hsq & Hmin & Hx & Hy & Hr & Hb).
  destruct resizing; [| destruct dragging]; unfold moveUpdater, MIN_CROP_SIZE; simpl.
  - repeat split; try reflexivity; minmax_lra.
  - repeat split; try assumption; minmax_lra.
  - repeat split; try assumption; minmax_lra.
Qed.

End MoveUpdater.

(** ** Coordinate transform *)

(** C1: the display-to-source conversion maps [{x,y,width,height}] to
    [{(x-offset.x)*scale.x, (y-offset.y)*scale.y, width*scale.x,
    height*scale.y}]; for natural size 1000x800 rendered at 400x320 inside a
    400x400 container the image load sets scale (2.5,2.5) and offset (0,40),
    and the display rectangle (100,140,100,100) converts to the source
    rectangle (250,250,250,250). *)
Theorem convertDisplayToSourceCrop_correct :
  (forall (sc off : Point) (dx dy dw dh : Q),
     convertDisplayToSourceCrop sc off (mkRect dx dy dw dh)
     = mkRect ((dx - px off) * px sc) ((dy - py off) * py sc)
              (dw * px sc) (dh * py sc)) /\
  (px (scale scenarioLoaded) == 25 # 10 /\ py (scale scenarioLoaded) == 25 # 10) /\
  (px (imageOffset scenarioLoaded) == 0 /\ py (imageOffset scenarioLoaded) == 40) /\
  rect_eq (convertDisplayToSourceCrop (scale scenarioLoaded) (imageOffset scenarioLoaded)
             (mkRect 100 140 100 100))
          (mkRect 250 250 250 250).
Proof.
  split; [reflexivity|].
  unfold rect_eq; vm_compute; intuition reflexivity.
Qed.

(** ** Crop state machine *)

(** The image element and [imageOffset] stay as they are while the events
    are handled: no event changes [imageOffset], and the updater reads the
    same [clientWidth] / [clientHeight] at every move.  The updater keeps the
    invariant for every pointer delta, whatever [startPos] the handler saw. *)

Lemma step_imageOffset (img : option ImgEl) (s : Cropper) (e : PointerEvent) :
  imageOffset (step img s e) = imageOffset s.
Proof.
  destruct e as [pos [|]|pos|]; simpl; try reflexivity.
  unfold handleInteractionMove.
  destruct (negb (isDragging s) && negb (isResizing s)); [reflexivity|].
  destruct img; reflexivity.
Qed.

Lemma handleInteractionMove_valid (el : ImgEl) (pos : Point) (s : Cropper) :
  cropValid (imageOffset s) (clientWidth el) (clientHeight el) (cropBox s) ->
  cropValid (imageOffset s) (clientWidth el) (clientHeight el)
            (cropBox (handleInteractionMove (Some el) pos s)).
Proof.
  intros Hv. unfold handleInteractionMove.
  destruct (negb (isDragging s) && negb (isResizing s)); [exact Hv|].
  simpl. apply moveUpdater_valid. exact Hv.
Qed.

Lemma step_valid (el : ImgEl) (s : Cropper) (e : PointerEvent) :
  cropValid (imageOffset s) (clientWidth el) (clientHeight el) (cropBox s) ->
  cropValid (imageOffset s) (clientWidth el) (clientHeight el)
            (cropBox (step (Some el) s e)).
Proof.
  destruct e as [pos [|]|pos|]; simpl; try (intros Hv; exact Hv).
  apply handleInteractionMove_valid.
Qed.

(** C2: from a state whose crop rectangle is square, of side at least
    [MIN_CROP_SIZE] and inside the rendered image (of positive dimensions),
    every state reached along any sequence of pointer events, hence the state
    after every single interaction move, still has a crop rectangle with
    [width == height], [width >= MIN_CROP_SIZE], and [x >= offset.x],
    [y >= offset.y], [x+width <= offset.x+renderedWidth],
    [y+height <= offset.y+renderedHeight]. *)
Theorem crop_invariant_preserved (el : ImgEl) (s : Cropper) (es : list PointerEvent) :
  0 < clientWidth el -> 0 < clientHeight el ->
  cropValid (imageOffset s) (clientWidth el) (clientHeight el) (cropBox s) ->
  Forall (fun s' =>
            width (cropBox s') == height (cropBox s') /\
            MIN_CROP_SIZE <= width (cropBox s') /\
            px (imageOffset s) <= x (cropBox s') /\
            py (imageOffset s) <= y (cropBox s') /\
            x (cropBox s') + width (cropBox s') <= px (imageOffset s) + clientWidth el /\
            y (cropBox s') + height (cropBox s') <= py (imageOffset s) + clientHeight el)
         (trace (Some el) s es).
Proof.
  intros _ _. revert s.
  induction es as [|e es IH]; intros s Hv; simpl; constructor.
  - exact (step_valid el s e Hv).
  - rewrite <- (step_imageOffset (Some el) s e).
    apply IH. rewrite step_imageOffset. apply step_valid. exact Hv.
Qed.

Lemma crop_invariant_preserved_witness :
  Forall (fun s' =>
            width (cropBox s') == height (cropBox s') /\
            MIN_CROP_SIZE <= width (cropBox s') /\
            px (imageOffset dragResizeStart) <= x (cropBox s') /\
            py (imageOffset dragResizeStart) <= y (cropBox s') /\
            x (cropBox s') + width (cropBox s')
              <= px (imageOffset dragResizeStart) + clientWidth dragResizeImg /\
            y (cropBox s') + height (cropBox s')
              <= py (imageOffset dragResizeStart) + clientHeight dragResizeImg)
         (trace (Some dragResizeImg) dragResizeStart dragResizeEvents).
Proof.
  apply (crop_invariant_preserved dragResizeImg dragResizeStart dragResizeEvents).
  - reflexivity.
  - reflexivity.
  - unfold cropValid, cropSquare, cropMinSize, cropInside; simpl.
    repeat split; unfold Qle; simpl; lia.
Defined.

(** Dragging by (20,5) from (100,100,100,100) on the 400x400 image
    translates the selection without clamping. *)
Example drag_translates :
  rect_eq (cropBox (handleInteractionMove (Some dragResizeImg) (mkPoint 170 155)
                      (handleInteractionStart (mkPoint 150 150) drag dragResizeStart)))
          (mkRect 120 105 100 100).
Proof. unfold rect_eq; vm_compute; intuition reflexivity. Qed.

(** The selections visited along [dragResizeEvents]. *)
Example dragResize_trace :
  map (fun s => let r := cropBox s in
                (Qred (x r), Qred (y r), Qred (width r), Qred (height r)))
      (trace (Some dragResizeImg) dragResizeStart dragResizeEvents)
  = [ (100, 100, 100, 100); (300, 105, 100, 100); (200, 105, 100, 100);
      (200, 105, 100, 100); (200, 105, 100, 100); (200, 105, 200, 200);
      (200, 105, 50, 50); (200, 105, 50, 50) ].
Proof. vm_compute. reflexivity. Qed.

(** ** Resizing *)

(** C3, as stated, fails: on the 50x50 image the resize move leaves a
    selection of side 45, below [MIN_CROP_SIZE], because the cap
    [min(right - x, bottom - y) = 45] is applied after the minimum. *)
Lemma resize_below_min_counterexample :
  rect_eq (cropBox tinyLoaded) (mkRect 5 5 40 40) /\
  isResizing (handleInteractionStart (mkPoint 45 45) resize tinyLoaded) = true /\
  rect_eq (cropBox tinyResized) (mkRect 5 5 45 45) /\
  ~ MIN_CROP_SIZE <= width (cropBox tinyResized).
Proof.
  unfold rect_eq; vm_compute; intuition congruence.
Qed.

(** C3 (amended): in Resizing mode a move with pointer delta (dx,dy) takes
    growth = max(dx,dy), adds it to the side, raises the result to at least
    [MIN_CROP_SIZE] and then caps it at
    [min(boundingBoxRight - rect.x, boundingBoxBottom - rect.y)]; width and
    height both receive that size, which never exceeds the cap and is at
    least [MIN_CROP_SIZE] whenever the cap is; resizing with delta (500,10)
    from (100,100,100,100) inside a 400x400 bound yields
    min(100+500, 400-100, 400-100) = 300. *)
Theorem resize_clamped_size :
  (forall (el : ImgEl) (pos : Point) (s : Cropper),
     isResizing s = true ->
     let dx := px pos - px (startPos s) in
     let dy := py pos - py (startPos s) in
     let right := px (imageOffset s) + clientWidth el in
     let bottom := py (imageOffset s) + clientHeight el in
     let cap := Qmin (right - x (cropBox s)) (bottom - y (cropBox s)) in
     let r := cropBox (handleInteractionMove (Some el) pos s) in
     width r == Qmin (Qmax MIN_CROP_SIZE (width (cropBox s) + Qmax dx dy)) cap /\
     height r = width r /\
     width r <= cap /\
     (MIN_CROP_SIZE <= cap -> MIN_CROP_SIZE <= width r)) /\
  (let s := mkCropper (mkRect 100 100 100 100) false true
                      (mkPoint 200 200) (mkPoint 1 1) (mkPoint 0 0) in
   let r := cropBox (handleInteractionMove (Some (mkImg 400 400 400 400))
                                           (mkPoint 700 210) s) in
   width r == 300 /\ height r == 300 /\
   Qmin (Qmin (100 + 500) (400 - 100)) (400 - 100) == 300).
Proof.
  split.
  - intros el pos s Hres dx dy right bottom cap r.
    assert (Hr : r = moveUpdater true (isDragging s) (imageOffset s)
                       (clientWidth el) (clientHeight el) dx dy (cropBox s)).
    { unfold r, handleInteractionMove. rewrite Hres.
      rewrite andb_false_r. reflexivity. }
    pose proof (resize_size (imageOffset s) (clientWidth el) (clientHeight el)
                  dx dy (cropBox s) (isDragging s)) as Hsz.
    cbv zeta in Hsz. rewrite <- Hr in Hsz. fold right bottom cap in Hsz.
    repeat split.
    + exact Hsz.
    + rewrite Hr. reflexivity.
    + rewrite Hsz. apply Q.le_min_r.
    + intros Hcap. rewrite Hsz. apply Q.min_glb; [apply Q.le_max_l | exact Hcap].
  - vm_compute. intuition congruence.
Qed.

Lemma resize_clamped_size_witness :
  MIN_CROP_SIZE <= Qmin (0 + 400 - 100) (0 + 400 - 100) /\
  MIN_CROP_SIZE
  <= width (cropBox (handleInteractionMove (Some dragResizeImg) (mkPoint 90 50)
                                           shrinkStart)).
Proof.
  assert (Hcap : MIN_CROP_SIZE <= Qmin (0 + 400 - 100) (0 + 400 - 100))
    by (vm_compute; discriminate).
  split; [exact Hcap|].
  apply (proj1 resize_clamped_size dragResizeImg (mkPoint 90 50) shrinkStart eq_refl).
  exact Hcap.
Defined.

(** ** The corner during a resize *)












(** ** Text wrapping *)

Lemma Qgt_bool_false (a b : Q) : Qgt_bool a b = false <-> a <= b.
Proof.
  unfold Qgt_bool. rewrite negb_false_iff, Qle_bool_iff. reflexivity.
Qed.

(** Five code units of advance 200 at [maxWidth = 460.8]: two per line. *)
Example wrap_five :
  wrapLines (fixedAdvance 200) [1; 2; 3; 4; 5]%N (PREVIEW_SIZE * (9 # 10))
  = [[1; 2]; [3; 4]; [5]]%N.
Proof. vm_compute. reflexivity. Qed.

(** A first code unit wider than [maxWidth] still opens the first line, and
    every later one is pushed onto a line of its own. *)
Example wrap_oversized :
  wrapLines (fixedAdvance 500) [1; 2; 3]%N (PREVIEW_SIZE * (9 # 10))
  = [[1]; [2]; [3]]%N.
Proof. vm_compute. reflexivity. Qed.

Example draw_three_lines :
  wrapText (fixedAdvance 200) [1; 2; 3; 4; 5]%N 256 482 (PREVIEW_SIZE * (9 # 10)) 60
  = [ StrokeText [5%N] 256 482; FillText [5%N] 256 482;
      StrokeText [3%N; 4%N] 256 (482 - 60); FillText [3%N; 4%N] 256 (482 - 60);
      StrokeText [1%N; 2%N] 256 (482 - 60 - 60); FillText [1%N; 2%N] 256 (482 - 60 - 60) ].
Proof. reflexivity. Qed.

Section WrapProofs.

Variable measureText : jsstring -> Q.
Variable maxWidth : Q.

(** The index test [n > 0] of the source and the emptiness test of the
    specification agree on every state the loop reaches. *)
Lemma wrapLoop_is_fold (characters : list code_unit) :
  forall (n : nat) (line : jsstring) (lines : list jsstring),
    (n = 0%nat <-> line = []) ->
    wrapLoop measureText maxWidth n characters line lines
    = fold_left (specWrapStep measureText maxWidth) characters (line, lines).
Proof.
  induction characters as [|c rest IH]; intros n line lines Hn; [reflexivity|].
  cbn [wrapLoop fold_left specWrapStep].
  assert (Hz : (0 <? n)%nat = negb (isEmptyLine line)).
  { destruct n as [|n], line as [|a line]; simpl; try reflexivity.
    - destruct Hn as [Hn _]. discriminate (Hn eq_refl).
    - destruct Hn as [_ Hn]. discriminate (Hn eq_refl). }
  rewrite Hz. unfold Qgt_bool.
  destruct (Qle_bool (measureText (line ++ [c])) maxWidth), (isEmptyLine line);
    simpl; apply IH; split; intros H; try discriminate H;
    try (destruct line; discriminate H).
Qed.

Lemma specWrapStep_append (line : jsstring) (lines : list jsstring) (c : code_unit) :
  measureText (line ++ [c]) <= maxWidth \/ line = [] ->
  specWrapStep measureText maxWidth (line, lines) c = (line ++ [c], lines).
Proof.
  intros H. unfold specWrapStep.
  destruct H as [H| ->].
  - apply Qle_bool_iff in H. rewrite H. reflexivity.
  - rewrite orb_true_r. reflexivity.
Qed.

Lemma specWrapStep_push (line : jsstring) (lines : list jsstring) (c : code_unit) :
  ~ (measureText (line ++ [c]) <= maxWidth \/ line = []) ->
  specWrapStep measureText maxWidth (line, lines) c = ([c], lines ++ [line]).
Proof.
  intros H. unfold specWrapStep.
  destruct (Qle_bool (measureText (line ++ [c])) maxWidth) eqn:E.
  - exfalso. apply H. left. apply Qle_bool_iff. exact E.
  - destruct line; [exfalso; apply H; right; reflexivity | reflexivity].
Qed.

Lemma specWrapLoop_snoc (text : jsstring) (c : code_unit) :
  specWrapLoop measureText maxWidth (text ++ [c])
  = specWrapStep measureText maxWidth (specWrapLoop measureText maxWidth text) c.
Proof. unfold specWrapLoop. rewrite fold_left_app. reflexivity. Qed.

Lemma wrapLines_fold (text : jsstring) :
  wrapLines measureText text maxWidth
  = (let '(line, lines) := specWrapLoop measureText maxWidth text in lines ++ [line]).
Proof.
  unfold wrapLines, specWrapLoop.
  rewrite wrapLoop_is_fold by (split; reflexivity). reflexivity.
Qed.

(** *** No character is lost *)

Lemma specWrapStep_concat (st : jsstring * list jsstring) (c : code_unit) :
  concat (snd (specWrapStep measureText maxWidth st c)
          ++ [fst (specWrapStep measureText maxWidth st c)])
  = concat (snd st ++ [fst st]) ++ [c].
Proof.
  destruct st as [line lines]. unfold specWrapStep.
  destruct (Qle_bool _ _ || isEmptyLine line); simpl;
    rewrite !concat_app; simpl; rewrite ?app_nil_r, ?app_assoc; reflexivity.
Qed.

Lemma wrapLines_concat (text : jsstring) :
  concat (wrapLines measureText text maxWidth) = text.
Proof.
  rewrite wrapLines_fold.
  induction text as [|c text IH] using rev_ind; [reflexivity|].
  rewrite specWrapLoop_snoc.
  pose proof (specWrapStep_concat (specWrapLoop measureText maxWidth text) c) as H.
  destruct (specWrapLoop measureText maxWidth text) as [line lines].
  destruct (specWrapStep measureText maxWidth (line, lines) c) as [line' lines'].
  simpl in H. rewrite H, IH. reflexivity.
Qed.

(** *** Shape of the lines *)

Lemma specWrapStep_settled (st : jsstring * list jsstring) (c : code_unit) :
  Forall (settled measureText maxWidth) (snd st) ->
  settled measureText maxWidth (fst st) \/ fst st = [] ->
  Forall (settled measureText maxWidth) (snd (specWrapStep measureText maxWidth st c)) /\
  settled measureText maxWidth (fst (specWrapStep measureText maxWidth st c)).
Proof.
  destruct st as [line lines]; simpl. intros Hls Hl. unfold specWrapStep.
  destruct (Qle_bool (measureText (line ++ [c])) maxWidth) eqn:E; simpl.
  - split; [exact Hls|]. left. apply Qle_bool_iff. exact E.
  - destruct line as [|a line]; simpl.
    + split; [exact Hls|]. right. reflexivity.
    + split; [|right; reflexivity].
      apply Forall_app. split; [exact Hls|].
      constructor; [|constructor].
      destruct Hl as [Hl|Hl]; [exact Hl | discriminate Hl].
Qed.

Lemma specWrapLoop_settled (text : jsstring) :
  Forall (settled measureText maxWidth) (snd (specWrapLoop measureText maxWidth text)) /\
  (text <> [] -> settled measureText maxWidth (fst (specWrapLoop measureText maxWidth text))) /\
  (text = [] -> fst (specWrapLoop measureText maxWidth text) = []).
Proof.
  induction text as [|c text IH] using rev_ind.
  - repeat split; [constructor | congruence].
  - rewrite specWrapLoop_snoc. destruct IH as (IH1 & IH2 & IH3).
    assert (Hl : settled measureText maxWidth
                   (fst (specWrapLoop measureText maxWidth text)) \/
                 fst (specWrapLoop measureText maxWidth text) = []).
    { destruct text as [|a text]; [right; apply IH3; reflexivity|].
      left; apply IH2; discriminate. }
    destruct (specWrapStep_settled _ c IH1 Hl) as [H1 H2].
    repeat split; [exact H1 | intros _; exact H2 |].
    intros H. destruct text; discriminate H.
Qed.

(** *** Wrapping a line again *)

Lemma stable_single (c : code_unit) : stable measureText maxWidth [c].
Proof. unfold stable, specWrapLoop; simpl. rewrite orb_true_r. reflexivity. Qed.

Lemma specWrapStep_stable (st : jsstring * list jsstring) (c : code_unit) :
  Forall (stable measureText maxWidth) (snd st) ->
  stable measureText maxWidth (fst st) ->
  Forall (stable measureText maxWidth) (snd (specWrapStep measureText maxWidth st c)) /\
  stable measureText maxWidth (fst (specWrapStep measureText maxWidth st c)).
Proof.
  destruct st as [line lines]; simpl. intros Hls Hl.
  unfold specWrapStep.
  destruct (Qle_bool (measureText (line ++ [c])) maxWidth || isEmptyLine line) eqn:E;
    simpl.
  - split; [exact Hls|]. unfold stable. rewrite specWrapLoop_snoc, Hl.
    unfold specWrapStep. rewrite E. reflexivity.
  - split; [|apply stable_single].
    apply Forall_app. split; [exact Hls|]. constructor; [exact Hl|constructor].
Qed.

Lemma specWrapLoop_stable (text : jsstring) :
  Forall (stable measureText maxWidth) (snd (specWrapLoop measureText maxWidth text)) /\
  stable measureText maxWidth (fst (specWrapLoop measureText maxWidth text)).
Proof.
  induction text as [|c text IH] using rev_ind.
  - split; [constructor | reflexivity].
  - rewrite specWrapLoop_snoc. destruct IH as [IH1 IH2].
    apply specWrapStep_stable; assumption.
Qed.

Lemma stable_wrapLines (l : jsstring) :
  stable measureText maxWidth l -> wrapLines measureText l maxWidth = [l].
Proof. intros H. rewrite wrapLines_fold, H. reflexivity. Qed.

(** *** Text that fits *)

Lemma wrapLoop_fits (characters : list code_unit) :
  forall (n : nat) (line : jsstring) (lines : list jsstring),
    (forall k, (k <= length characters)%nat ->
               measureText (line ++ firstn k characters) <= maxWidth) ->
    wrapLoop measureText maxWidth n characters line lines = (line ++ characters, lines).
Proof.
  induction characters as [|c rest IH]; intros n line lines Hfit; simpl.
  - rewrite app_nil_r. reflexivity.
  - pose proof (Hfit 1%nat ltac:(simpl; lia)) as H1. simpl in H1.
    apply Qgt_bool_false in H1. rewrite H1. simpl.
    rewrite IH.
    + rewrite <- app_assoc. reflexivity.
    + intros k Hk. rewrite <- app_assoc. simpl.
      apply (Hfit (S k)). simpl. lia.
Qed.

End WrapProofs.

(** ** Drawing *)

Lemma inject_nat_succ (j : nat) :
  inject_Z (Z.of_nat (S j)) == inject_Z (Z.of_nat j) + 1.
Proof. rewrite Nat2Z.inj_succ. unfold Z.succ. rewrite inject_Z_plus. reflexivity. Qed.

Lemma drawLoop_length (lines : list jsstring) (tx lineHeight : Q) (k : nat) :
  forall currentY, length (drawLoop lines tx lineHeight k currentY) = (2 * k)%nat.
Proof. induction k as [|i IH]; intros cy; simpl; [reflexivity|]. rewrite IH. lia. Qed.

(** The [j]-th pair of calls, counted from the first one made, strokes and
    then fills line [k - 1 - j], [j] line heights above the starting
    position. *)
Lemma drawLoop_at (lines : list jsstring) (tx lineHeight : Q) (k : nat) :
  forall (currentY : Q) (j : nat), (j < k)%nat ->
    exists yj,
      nth_error (drawLoop lines tx lineHeight k currentY) (2 * j)
        = Some (StrokeText (nth (k - 1 - j) lines []) tx yj) /\
      nth_error (drawLoop lines tx lineHeight k currentY) (2 * j + 1)
        = Some (FillText (nth (k - 1 - j) lines []) tx yj) /\
      yj == currentY - inject_Z (Z.of_nat j) * lineHeight.
Proof.
  induction k as [|i IH]; intros cy j Hj; [lia|].
  destruct j as [|j].
  - exists cy. replace (S i - 1 - 0)%nat with i by lia.
    split; [reflexivity|]. split; [reflexivity|].
    change (inject_Z (Z.of_nat 0)) with 0. lra.
  - destruct (IH (cy - lineHeight) j ltac:(lia)) as (yj & Hs & Hf & Hy).
    exists yj.
    replace (2 * S j)%nat with (S (S (2 * j))) by lia.
    replace (S i - 1 - S j)%nat with (i - 1 - j)%nat by lia.
    cbn [drawLoop nth_error Nat.add]. repeat split.
    + exact Hs.
    + exact Hf.
    + rewrite Hy, inject_nat_succ. lra.
Qed.

(** ** The wrap algorithm as specified *)

(** C4: for every text and measure, the loop handles the characters in
    order keeping a current line: from the state reached on [text], the next
    character [c] is appended to the current line exactly when the width of
    line+[c] does not exceed [maxWidth] or the line is empty, and otherwise
    the line is pushed and a new line holding just [c] starts; so the loop
    is the left fold of that rule from the empty line. *)
Theorem wrap_loop_follows_rule (measureText : jsstring -> Q) (maxWidth : Q) :
  wrapLoop measureText maxWidth 0 [] [] [] = ([], []) /\
  (forall (text : jsstring) (c : code_unit),
     let st := wrapLoop measureText maxWidth 0 text [] [] in
     let keeps := measureText (fst st ++ [c]) <= maxWidth \/ fst st = [] in
     (keeps ->
      wrapLoop measureText maxWidth 0 (text ++ [c]) [] [] = (fst st ++ [c], snd st)) /\
     (~ keeps ->
      wrapLoop measureText maxWidth 0 (text ++ [c]) [] [] = ([c], snd st ++ [fst st]))) /\
  (forall text : jsstring,
     wrapLoop measureText maxWidth 0 text [] [] = specWrapLoop measureText maxWidth text).
Proof.
  assert (Hfold : forall text, wrapLoop measureText maxWidth 0 text [] []
                               = specWrapLoop measureText maxWidth text).
  { intros text. apply wrapLoop_is_fold. split; reflexivity. }
  split; [reflexivity|]. split; [|exact Hfold].
  intros text c st keeps. unfold keeps, st.
  rewrite !Hfold, specWrapLoop_snoc.
  destruct (specWrapLoop measureText maxWidth text) as [line lines]; simpl.
  split; intros H.
  - apply specWrapStep_append. exact H.
  - apply specWrapStep_push. exact H.
Qed.

Lemma wrap_loop_follows_rule_witness :
  wrapLoop (fixedAdvance 200) (PREVIEW_SIZE * (9 # 10)) 0 ([1; 2] ++ [3])%N [] []
  = ([3%N], [] ++ [[1%N; 2%N]]) /\
  wrapLoop (fixedAdvance 200) (PREVIEW_SIZE * (9 # 10)) 0 ([1] ++ [2])%N [] []
  = ([1%N] ++ [2%N], []).
Proof.
  pose proof (wrap_loop_follows_rule (fixedAdvance 200) (PREVIEW_SIZE * (9 # 10)))
    as (_ & Hstep & _).
  split.
  - apply (proj2 (Hstep [1; 2]%N 3%N)).
    intros [H|H]; [vm_compute in H; apply H; reflexivity | discriminate H].
  - apply (proj1 (Hstep [1%N] 2%N)).
    left. vm_compute. discriminate.
Defined.

(** C5, as stated, fails: for the empty text the line list is not empty (it
    holds the empty line) and the preview makes a stroke and a fill call. *)
Lemma empty_text_counterexample :
  wrapLines (fixedAdvance 51) [] (PREVIEW_SIZE * (9 # 10)) = [[]] /\
  wrapLines (fixedAdvance 51) [] (PREVIEW_SIZE * (9 # 10)) <> [] /\
  MemePreview_drawText (fixedAdvance 51) PREVIEW_SIZE PREVIEW_SIZE [] 51 30
  = [StrokeText [] (PREVIEW_SIZE / 2) 482; FillText [] (PREVIEW_SIZE / 2) 482] /\
  MemePreview_drawText (fixedAdvance 51) PREVIEW_SIZE PREVIEW_SIZE [] 51 30 <> [].
Proof.
  repeat split; try reflexivity; discriminate.
Qed.

(** C5 (amended): for the empty text the wrap algorithm produces exactly
    one line, the empty one, and makes exactly one stroke call and one fill
    call, both with the empty string at the anchor position. *)
Theorem empty_text_one_empty_line (measureText : jsstring -> Q)
    (tx ty maxWidth lineHeight : Q) :
  wrapLines measureText [] maxWidth = [[]] /\
  wrapText measureText [] tx ty maxWidth lineHeight
  = [StrokeText [] tx ty; FillText [] tx ty].
Proof. split; reflexivity. Qed.

(** C8: the lines produced, concatenated in order, are the input text. *)
Theorem wrap_keeps_every_character (measureText : jsstring -> Q) (maxWidth : Q)
    (text : jsstring) :
  concat (wrapLines measureText text maxWidth) = text.
Proof. apply wrapLines_concat. Qed.

(** C7: joining the lines back into the text and wrapping again at the same
    width gives the same lines; moreover every line, wrapped alone, comes
    back as that one line. *)
Theorem wrap_again_same_lines (measureText : jsstring -> Q) (maxWidth : Q)
    (text : jsstring) :
  wrapLines measureText (concat (wrapLines measureText text maxWidth)) maxWidth
  = wrapLines measureText text maxWidth /\
  Forall (fun l => wrapLines measureText l maxWidth = [l])
         (wrapLines measureText text maxWidth).
Proof.
  split.
  - rewrite wrapLines_concat. reflexivity.
  - rewrite wrapLines_fold.
    destruct (specWrapLoop_stable measureText maxWidth text) as [Hls Hl].
    destruct (specWrapLoop measureText maxWidth text) as [line lines]; simpl in *.
    apply Forall_app. split.
    + eapply Forall_impl; [|exact Hls]. intros l. apply stable_wrapLines.
    + constructor; [|constructor]. apply stable_wrapLines. exact Hl.
Qed.



(** ** Bottom-up drawing *)

Lemma lineY_last (ty lineHeight : Q) (n : nat) :
  lineY ty lineHeight n (n - 1) == ty.
Proof.
  unfold lineY. rewrite Nat.sub_diag. change (inject_Z (Z.of_nat 0)) with 0. lra.
Qed.

Lemma lineY_above (ty lineHeight : Q) (n i : nat) :
  (S i < n)%nat ->
  lineY ty lineHeight n i == lineY ty lineHeight n (S i) - lineHeight.
Proof.
  intros Hi. unfold lineY.
  replace (n - 1 - i)%nat with (S (n - 1 - S i)) by lia.
  rewrite inject_nat_succ. lra.
Qed.

Lemma nth_before_length (lines : list jsstring) :
  lines <> [] -> nth (length lines - 1) lines [] = last lines [].
Proof.
  intros Hne. destruct (exists_last Hne) as (front & l & ->).
  rewrite last_last, length_app, app_nth2 by (simpl; lia).
  simpl. replace (length front + 1 - 1 - length front)%nat with 0%nat by lia.
  reflexivity.
Qed.

Lemma wrapLines_fits (measureText : jsstring -> Q) (maxWidth : Q) (text : jsstring) :
  (forall k, (k <= length text)%nat -> measureText (firstn k text) <= maxWidth) ->
  wrapLines measureText text maxWidth = [text].
Proof.
  intros Hfit. unfold wrapLines.
  rewrite wrapLoop_fits by exact Hfit. reflexivity.
Qed.

(** C6: for every nonempty line list the draw loop strokes and then fills
    each line, the last line first at the anchor [y] and each earlier line
    one [lineHeight] above the line after it; the preview calls it with
    [y = canvas.height - textYOffset] and [lineHeight = fontSize * 1.2];
    text that fits one line of the 512-wide output (every prefix fits in
    90% of 512 or, more generally, the wrap yields a single line) is drawn,
    at font size 51 and offset 30, as the single line at
    [y = 512 - 30 = 482]. *)
Theorem lines_drawn_bottom_up :
  (forall (lines : list jsstring) (tx ty lineHeight : Q),
     lines <> [] ->
     let n := length lines in
     let calls := drawLoop lines tx lineHeight n ty in
     length calls = (2 * n)%nat /\
     nth_error calls 0 = Some (StrokeText (last lines []) tx ty) /\
     nth_error calls 1 = Some (FillText (last lines []) tx ty) /\
     (forall i, (i < n)%nat ->
        exists yi,
          nth_error calls (2 * (n - 1 - i)) = Some (StrokeText (nth i lines []) tx yi) /\
          nth_error calls (2 * (n - 1 - i) + 1) = Some (FillText (nth i lines []) tx yi) /\
          yi == lineY ty lineHeight n i) /\
     lineY ty lineHeight n (n - 1) == ty /\
     (forall i, (S i < n)%nat ->
        lineY ty lineHeight n i == lineY ty lineHeight n (S i) - lineHeight)) /\
  (forall (measureText : jsstring -> Q) (canvasWidth canvasHeight : Q)
          (text : jsstring) (fontSize textYOffset : Q),
     let lines := wrapLines measureText text (canvasWidth * (9 # 10)) in
     lines <> [] /\
     MemePreview_drawText measureText canvasWidth canvasHeight text fontSize textYOffset
     = drawLoop lines (canvasWidth / 2) (fontSize * (12 # 10)) (length lines)
                (canvasHeight - textYOffset)) /\
  (forall (measureText : jsstring -> Q) (text : jsstring),
     (forall k, (k <= length text)%nat ->
                measureText (firstn k text) <= PREVIEW_SIZE * (9 # 10)) ->
     MemePreview_drawText measureText PREVIEW_SIZE PREVIEW_SIZE text 51 30
     = [StrokeText text (PREVIEW_SIZE / 2) 482; FillText text (PREVIEW_SIZE / 2) 482]) /\
  (forall (measureText : jsstring -> Q) (text : jsstring),
     length (wrapLines measureText text (PREVIEW_SIZE * (9 # 10))) = 1%nat ->
     MemePreview_drawText measureText PREVIEW_SIZE PREVIEW_SIZE text 51 30
     = [StrokeText text (PREVIEW_SIZE / 2) 482; FillText text (PREVIEW_SIZE / 2) 482]) /\
  PREVIEW_SIZE - 30 == 482.
Proof.
  split; [|split; [|split; [|split]]].
  - intros lines tx ty lineHeight Hne n calls.
    assert (Hn : (0 < n)%nat).
    { unfold n. destruct lines; [congruence | simpl; lia]. }
    assert (Hat : forall i, (i < n)%nat ->
              exists yi,
                nth_error calls (2 * (n - 1 - i)) = Some (StrokeText (nth i lines []) tx yi) /\
                nth_error calls (2 * (n - 1 - i) + 1) = Some (FillText (nth i lines []) tx yi) /\
                yi == lineY ty lineHeight n i).
    { intros i Hi.
      destruct (drawLoop_at lines tx lineHeight n ty (n - 1 - i) ltac:(lia))
        as (yi & Hs & Hf & Hy).
      replace (n - 1 - (n - 1 - i))%nat with i in Hs, Hf by lia.
      exists yi. repeat split; assumption. }
    repeat apply conj.
    + apply drawLoop_length.
    + rewrite <- (nth_before_length lines Hne). fold n.
      unfold calls. destruct n as [|k]; [lia|].
      simpl. rewrite Nat.sub_0_r. reflexivity.
    + rewrite <- (nth_before_length lines Hne). fold n.
      unfold calls. destruct n as [|k]; [lia|].
      simpl. rewrite Nat.sub_0_r. reflexivity.
    + exact Hat.
    + apply lineY_last.
    + intros i Hi. apply lineY_above. exact Hi.
  - intros measureText canvasWidth canvasHeight text fontSize textYOffset.
    split; [|reflexivity].
    unfold wrapLines.
    destruct (wrapLoop measureText (canvasWidth * (9 # 10)) 0 text [] []) as [l ls].
    destruct ls; discriminate.
  - intros measureText text Hfit.
    unfold MemePreview_drawText, wrapText.
    rewrite (wrapLines_fits measureText _ text Hfit). reflexivity.
  - intros measureText text Hone.
    pose proof (wrapLines_concat measureText (PREVIEW_SIZE * (9 # 10)) text) as Hcat.
    unfold MemePreview_drawText, wrapText.
    destruct (wrapLines measureText text (PREVIEW_SIZE * (9 # 10))) as [|l [|l' ls]];
      try discriminate Hone.
    simpl in Hcat. rewrite app_nil_r in Hcat. subst l. reflexivity.
  - reflexivity.
Qed.

Lemma lines_drawn_bottom_up_witness :
  MemePreview_drawText (fixedAdvance 51) PREVIEW_SIZE PREVIEW_SIZE defaultText 51 30
  = [StrokeText defaultText (PREVIEW_SIZE / 2) 482;
     FillText defaultText (PREVIEW_SIZE / 2) 482] /\
  nth_error (drawLoop [[1%N]; [2%N; 3%N]] 256 (612 # 10) 2 482) 0
  = Some (StrokeText [2%N; 3%N] 256 482).
Proof.
  split.
  - apply (proj1 (proj2 (proj2 lines_drawn_bottom_up)) (fixedAdvance 51) defaultText).
    intros k Hk.
    destruct k as [|[|[|[|k]]]]; vm_compute; discriminate.
  - pose proof (proj1 lines_drawn_bottom_up [[1%N]; [2%N; 3%N]] 256 482 (612 # 10)
                  ltac:(discriminate)) as H.
    cbv zeta in H. destruct H as (_ & H0 & _). exact H0.
Defined.

(** * Further properties of the cropper *)

Lemma Qeq_zero_pos (q : Q) : 0 < q -> Qeq_zero q = false.
Proof.
  intros Hq. unfold Qeq_zero.
  destruct (Qeq_bool q 0) eqn:E; [|reflexivity].
  apply Qeq_bool_iff in E. lra.
Qed.

Lemma handleImageLoad_loaded (img : ImgEl) (c : Container) (s : Cropper) :
  0 < clientWidth img -> 0 < clientHeight img ->
  handleImageLoad img (Some c) s
  = mkCropper
      (mkRect ((containerWidth c - clientWidth img) / 2
               + (clientWidth img - Qmin (clientWidth img) (clientHeight img) * (8 # 10)) / 2)
              ((containerHeight c - clientHeight img) / 2
               + (clientHeight img - Qmin (clientWidth img) (clientHeight img) * (8 # 10)) / 2)
              (Qmin (clientWidth img) (clientHeight img) * (8 # 10))
              (Qmin (clientWidth img) (clientHeight img) * (8 # 10)))
      (isDragging s) (isResizing s) (startPos s)
      (mkPoint (naturalWidth img / clientWidth img) (naturalHeight img / clientHeight img))
      (mkPoint ((containerWidth c - clientWidth img) / 2)
               ((containerHeight c - clientHeight img) / 2)).
Proof.
  intros Hw Hh. unfold handleImageLoad.
  rewrite (Qeq_zero_pos _ Hw), (Qeq_zero_pos _ Hh). reflexivity.
Qed.

(** The selection set by an image load is a square of side 0.8 times the
    shorter rendered side, centred on the rendered image and inside it; it
    reaches the minimum size exactly when the shorter side is at least
    62.5. *)
Theorem handleImageLoad_initial_crop (img : ImgEl) (c : Container) (s : Cropper) :
  0 < clientWidth img -> 0 < clientHeight img ->
  let s' := handleImageLoad img (Some c) s in
  let r := cropBox s' in
  let off := imageOffset s' in
  cropSquare r /\
  width r == Qmin (clientWidth img) (clientHeight img) * (8 # 10) /\
  cropInside off (clientWidth img) (clientHeight img) r /\
  x r - px off == px off + clientWidth img - (x r + width r) /\
  y r - py off == py off + clientHeight img - (y r + height r) /\
  (cropMinSize r <-> 125 # 2 <= Qmin (clientWidth img) (clientHeight img)).
Proof.
  intros Hw Hh s' r off. unfold r, off, s'.
  rewrite (handleImageLoad_loaded img c s Hw Hh).
  unfold cropSquare, cropInside, cropMinSize, MIN_CROP_SIZE. simpl.
  pose proof (Q.min_spec (clientWidth img) (clientHeight img)) as Hmin.
  set (m := Qmin (clientWidth img) (clientHeight img)) in *. clearbody m.
  unfold Qdiv; change (/ 2) with (1 # 2).
  repeat split; lra.
Qed.

Lemma handleImageLoad_initial_crop_witness :
  cropInside (imageOffset scenarioLoaded) 400 320 (cropBox scenarioLoaded) /\
  width (cropBox scenarioLoaded) == 256.
Proof.
  pose proof (handleImageLoad_initial_crop scenarioImg scenarioContainer initialCropper
                eq_refl eq_refl) as H.
  cbv zeta in H. destruct H as (_ & Hside & Hin & _).
  split; [exact Hin|].
  rewrite Hside. vm_compute. reflexivity.
Defined.

Lemma trace_cropValid (el : ImgEl) (es : list PointerEvent) :
  forall s : Cropper,
    cropValid (imageOffset s) (clientWidth el) (clientHeight el) (cropBox s) ->
    Forall (fun s' => cropValid (imageOffset s) (clientWidth el) (clientHeight el)
                                (cropBox s'))
           (trace (Some el) s es).
Proof.
  induction es as [|e es IH]; intros s Hv; simpl; constructor.
  - apply step_valid. exact Hv.
  - rewrite <- (step_imageOffset (Some el) s e).
    apply IH. rewrite step_imageOffset. apply step_valid. exact Hv.
Qed.

(** When the shorter rendered side of the image is at least 62.5, every
    selection reached from the image load by pointer events is square, at
    least [MIN_CROP_SIZE] wide and inside the rendered image. *)
Theorem loaded_selection_always_valid (img : ImgEl) (c : Container) (s : Cropper)
    (es : list PointerEvent) :
  125 # 2 <= Qmin (clientWidth img) (clientHeight img) ->
  let s0 := handleImageLoad img (Some c) s in
  Forall (fun s' => cropValid (imageOffset s0) (clientWidth img) (clientHeight img)
                              (cropBox s'))
         (s0 :: trace (Some img) s0 es).
Proof.
  intros Hmin s0.
  assert (Hw : 0 < clientWidth img).
  { pose proof (Q.le_min_l (clientWidth img) (clientHeight img)). lra. }
  assert (Hh : 0 < clientHeight img).
  { pose proof (Q.le_min_r (clientWidth img) (clientHeight img)). lra. }
  pose proof (handleImageLoad_initial_crop img c s Hw Hh) as H.
  cbv zeta in H. fold s0 in H. destruct H as (Hsq & _ & Hin & _ & _ & Hsz).
  assert (Hv : cropValid (imageOffset s0) (clientWidth img) (clientHeight img)
                         (cropBox s0)).
  { repeat split; try apply Hin; [exact Hsq | apply Hsz; exact Hmin]. }
  constructor; [exact Hv | apply trace_cropValid; exact Hv].
Qed.

Lemma loaded_selection_always_valid_witness :
  Forall (fun s' => cropValid (imageOffset scenarioLoaded) 400 320 (cropBox s'))
         (scenarioLoaded :: trace (Some scenarioImg) scenarioLoaded dragResizeEvents).
Proof.
  apply (loaded_selection_always_valid scenarioImg scenarioContainer initialCropper
           dragResizeEvents).
  vm_compute. discriminate.
Defined.

Lemma scale_facts (n r : Q) :
  0 < r -> 0 <= n -> 0 <= n / r /\ r * (n / r) == n.
Proof.
  intros Hr Hn. split.
  - apply Qle_shift_div_l; [exact Hr | lra].
  - field. lra.
Qed.

(** After an image load, a display rectangle of non-negative size inside the
    rendered image converts to a source rectangle of non-negative size inside
    the natural image, and the rendered image itself converts to the whole
    natural image. *)
Theorem source_crop_inside_natural (img : ImgEl) (c : Container) (s : Cropper) (r : Rect) :
  0 < clientWidth img -> 0 < clientHeight img ->
  0 <= naturalWidth img -> 0 <= naturalHeight img ->
  let s' := handleImageLoad img (Some c) s in
  let convert := convertDisplayToSourceCrop (scale s') (imageOffset s') in
  (cropInside (imageOffset s') (clientWidth img) (clientHeight img) r ->
   0 <= width r -> 0 <= height r ->
   0 <= x (convert r) /\ 0 <= y (convert r) /\
   0 <= width (convert r) /\ 0 <= height (convert r) /\
   x (convert r) + width (convert r) <= naturalWidth img /\
   y (convert r) + height (convert r) <= naturalHeight img) /\
  rect_eq (convert (mkRect (px (imageOffset s')) (py (imageOffset s'))
                           (clientWidth img) (clientHeight img)))
          (mkRect 0 0 (naturalWidth img) (naturalHeight img)).
Proof.
  intros Hw Hh Hnw Hnh s' convert. unfold convert, s'.
  rewrite (handleImageLoad_loaded img c s Hw Hh).
  unfold cropInside, rect_eq, convertDisplayToSourceCrop. simpl.
  destruct (scale_facts (naturalWidth img) (clientWidth img) Hw Hnw) as [Hsx Hex].
  destruct (scale_facts (naturalHeight img) (clientHeight img) Hh Hnh) as [Hsy Hey].
  set (sx := naturalWidth img / clientWidth img) in *.
  set (sy := naturalHeight img / clientHeight img) in *.
  set (ox := (containerWidth c - clientWidth img) / 2).
  set (oy := (containerHeight c - clientHeight img) / 2).
  split.
  - intros (Hx & Hy & Hr & Hb) Hwd Hht.
    assert (Hax : 0 <= (x r - ox) * sx) by (apply Qmult_le_0_compat; lra).
    assert (Hay : 0 <= (y r - oy) * sy) by (apply Qmult_le_0_compat; lra).
    assert (Hbx : 0 <= width r * sx) by (apply Qmult_le_0_compat; lra).
    assert (Hby : 0 <= height r * sy) by (apply Qmult_le_0_compat; lra).
    assert (Hcx : (x r - ox + width r) * sx <= clientWidth img * sx)
      by (apply Qmult_le_compat_r; lra).
    assert (Hcy : (y r - oy + height r) * sy <= clientHeight img * sy)
      by (apply Qmult_le_compat_r; lra).
    repeat split; try assumption.
    + setoid_replace ((x r - ox) * sx + width r * sx)
        with ((x r - ox + width r) * sx) by ring.
      rewrite <- Hex. exact Hcx.
    + setoid_replace ((y r - oy) * sy + height r * sy)
        with ((y r - oy + height r) * sy) by ring.
      rewrite <- Hey. exact Hcy.
  - repeat split; try ring.
    + rewrite <- Hex. ring.
    + rewrite <- Hey. ring.
Qed.

Lemma source_crop_inside_natural_witness :
  let convert := convertDisplayToSourceCrop (scale scenarioLoaded)
                                            (imageOffset scenarioLoaded) in
  x (convert (mkRect 300 260 100 100)) + width (convert (mkRect 300 260 100 100))
  <= 1000.
Proof.
  intros convert.
  pose proof (source_crop_inside_natural scenarioImg scenarioContainer initialCropper
                (mkRect 300 260 100 100) eq_refl eq_refl) as H.
  cbv zeta in H.
  assert (H0 : 0 <= naturalWidth scenarioImg) by (vm_compute; discriminate).
  assert (H1 : 0 <= naturalHeight scenarioImg) by (vm_compute; discriminate).
  destruct (H H0 H1) as [Hin _].
  apply Hin.
  - unfold cropInside; vm_compute; intuition discriminate.
  - vm_compute; discriminate.
  - vm_compute; discriminate.
Defined.

(** ** Dragging *)

Lemma handleInteractionMove_active (el : ImgEl) (pos : Point) (s : Cropper) :
  isDragging s = true \/ isResizing s = true ->
  handleInteractionMove (Some el) pos s
  = set_startPos
      (set_cropBox s
         (moveUpdater (isResizing s) (isDragging s) (imageOffset s)
            (clientWidth el) (clientHeight el)
            (px pos - px (startPos s)) (py pos - py (startPos s)) (cropBox s)))
      pos.
Proof.
  intros H. unfold handleInteractionMove.
  destruct (isDragging s), (isResizing s); try reflexivity.
  destruct H; discriminate.
Qed.

(** In Dragging mode a move never changes the size of the selection; the
    selection is translated by exactly the pointer delta when the translated
    rectangle is inside the rendered image, and otherwise a selection no
    larger than the image is pinned to the edge it would cross. *)
Theorem drag_translates_or_pins (el : ImgEl) (pos : Point) (s : Cropper) :
  isResizing s = false -> isDragging s = true ->
  let dx := px pos - px (startPos s) in
  let dy := py pos - py (startPos s) in
  let r := cropBox s in
  let r' := cropBox (handleInteractionMove (Some el) pos s) in
  let left := px (imageOffset s) in
  let top := py (imageOffset s) in
  let right := px (imageOffset s) + clientWidth el in
  let bottom := py (imageOffset s) + clientHeight el in
  width r' = width r /\ height r' = height r /\
  (left <= x r + dx -> x r + dx + width r <= right -> x r' == x r + dx) /\
  (top <= y r + dy -> y r + dy + height r <= bottom -> y r' == y r + dy) /\
  (width r <= clientWidth el -> x r + dx <= left -> x r' == left) /\
  (width r <= clientWidth el -> right <= x r + dx + width r -> x r' == right - width r) /\
  (height r <= clientHeight el -> y r + dy <= top -> y r' == top) /\
  (height r <= clientHeight el -> bottom <= y r + dy + height r ->
   y r' == bottom - height r).
Proof.
  intros Hres Hdrag dx dy r r' left top right bottom.
  unfold r', r, left, top, right, bottom.
  rewrite (handleInteractionMove_active el pos s (or_introl Hdrag)).
  rewrite Hres, Hdrag. unfold moveUpdater. simpl. fold dx dy.
  split; [reflexivity|]. split; [reflexivity|].
  repeat split; intros; minmax_lra.
Qed.

Lemma drag_translates_or_pins_witness :
  let s := handleInteractionStart (mkPoint 150 150) drag dragResizeStart in
  x (cropBox (handleInteractionMove (Some dragResizeImg) (mkPoint 170 155) s)) == 120 /\
  x (cropBox (handleInteractionMove (Some dragResizeImg) (mkPoint 900 155) s)) == 300.
Proof.
  intros s. split.
  - pose proof (drag_translates_or_pins dragResizeImg (mkPoint 170 155) s
                  eq_refl eq_refl) as H.
    cbv zeta in H. destruct H as (_ & _ & Hx & _).
    rewrite Hx; vm_compute; try discriminate. reflexivity.
  - pose proof (drag_translates_or_pins dragResizeImg (mkPoint 900 155) s
                  eq_refl eq_refl) as H.
    cbv zeta in H. destruct H as (_ & _ & _ & _ & _ & Hx & _).
    rewrite Hx; vm_compute; try discriminate. reflexivity.
Defined.

(** ** Modes *)




Lemma step_scale (img : option ImgEl) (s : Cropper) (e : PointerEvent) :
  scale (step img s e) = scale s.
Proof.
  destruct e as [pos [|]|pos|]; simpl; try reflexivity.
  unfold handleInteractionMove.
  destruct (negb (isDragging s) && negb (isResizing s)); [reflexivity|].
  destruct img; reflexivity.
Qed.

Lemma step_cropBox_not_move (img : option ImgEl) (s : Cropper) (e : PointerEvent) :
  isMove e = false -> cropBox (step img s e) = cropBox s.
Proof. destruct e as [pos [|]|pos|]; simpl; intros H; try reflexivity. discriminate H. Qed.

(** No sequence of pointer events changes the scale factors or the image
    offset, and a sequence without moves (presses and releases only) leaves
    the selection where it was. *)
Theorem pointer_events_frame (img : option ImgEl) (s : Cropper) (es : list PointerEvent) :
  scale (run img s es) = scale s /\
  imageOffset (run img s es) = imageOffset s /\
  (forallb (fun e => negb (isMove e)) es = true ->
   cropBox (run img s es) = cropBox s).
Proof.
  revert s. induction es as [|e es IH]; intros s; [repeat split; reflexivity|].
  unfold run in *. simpl. destruct (IH (step img s e)) as (Hs & Ho & Hc).
  rewrite Hs, Ho, step_scale, step_imageOffset.
  split; [reflexivity|]. split; [reflexivity|].
  intros Hall. apply andb_true_iff in Hall. destruct Hall as [He Hes].
  rewrite (Hc Hes). apply step_cropBox_not_move.
  apply negb_true_iff. exact He.
Qed.

Lemma pointer_events_frame_witness :
  cropBox (run (Some dragResizeImg) dragResizeStart
             [EvStart (mkPoint 1 2) drag; EvEnd; EvStart (mkPoint 3 4) resize])
  = cropBox dragResizeStart.
Proof.
  apply (pointer_events_frame (Some dragResizeImg) dragResizeStart
           [EvStart (mkPoint 1 2) drag; EvEnd; EvStart (mkPoint 3 4) resize]).
  reflexivity.
Defined.

(** ** Mirrored moves *)

(** In Resizing mode the two components of the pointer delta are
    interchangeable, so a purely horizontal and a purely vertical motion of
    the same length give the same selection; and a larger growth never gives
    a smaller selection. *)
Theorem resize_symmetric_monotone (el : ImgEl) (p q : Point) (s : Cropper) :
  isResizing s = true ->
  let dx := px p - px (startPos s) in
  let dy := py p - py (startPos s) in
  let ex := px q - px (startPos s) in
  let ey := py q - py (startPos s) in
  let rp := cropBox (handleInteractionMove (Some el) p s) in
  let rq := cropBox (handleInteractionMove (Some el) q s) in
  (dx == ey -> dy == ex -> rect_eq rp rq) /\
  (Qmax dx dy <= Qmax ex ey -> width rp <= width rq /\ height rp <= height rq).
Proof.
  intros Hres dx dy ex ey rp rq. unfold rp, rq.
  rewrite !(handleInteractionMove_active el _ s (or_intror Hres)), Hres.
  unfold moveUpdater, rect_eq, MIN_CROP_SIZE. simpl. fold dx dy ex ey.
  split.
  - intros H1 H2. repeat split; minmax_lra.
  - intros H. generalize dependent (Qmax dx dy). generalize dependent (Qmax ex ey).
    intros g g' Hg. split; minmax_lra.
Qed.

Lemma resize_symmetric_monotone_witness :
  let s := handleInteractionStart (mkPoint 200 200) resize dragResizeStart in
  rect_eq (cropBox (handleInteractionMove (Some dragResizeImg) (mkPoint 260 200) s))
          (cropBox (handleInteractionMove (Some dragResizeImg) (mkPoint 200 260) s)) /\
  width (cropBox (handleInteractionMove (Some dragResizeImg) (mkPoint 230 200) s))
  <= width (cropBox (handleInteractionMove (Some dragResizeImg) (mkPoint 200 260) s)).
Proof.
  intros s. split.
  - apply (proj1 (resize_symmetric_monotone dragResizeImg (mkPoint 260 200)
                    (mkPoint 200 260) s eq_refl)); vm_compute; reflexivity.
  - apply (proj2 (resize_symmetric_monotone dragResizeImg (mkPoint 230 200)
                    (mkPoint 200 260) s eq_refl)). vm_compute. discriminate.
Defined.

(** * Further properties of the wrap *)

Section WrapMore.

Variable measureText : jsstring -> Q.
Variable maxWidth : Q.

Lemma specWrapLoop_shape (text : jsstring) :
  Forall (fun l => l <> []) (snd (specWrapLoop measureText maxWidth text)) /\
  (text = [] -> specWrapLoop measureText maxWidth text = ([], [])) /\
  (text <> [] ->
   fst (specWrapLoop measureText maxWidth text) <> [] /\
   (S (length (snd (specWrapLoop measureText maxWidth text))) <= length text)%nat).
Proof.
  induction text as [|c text IH] using rev_ind.
  - repeat split; [constructor | congruence | congruence].
  - rewrite specWrapLoop_snoc. destruct IH as (IHl & IHe & IHn).
    split; [|split; [intros H; destruct text; discriminate H|intros _]].
    + destruct text as [|a text].
      * rewrite (IHe eq_refl). unfold specWrapStep; simpl.
        rewrite orb_true_r. constructor.
      * destruct (IHn ltac:(discriminate)) as [Hne _].
        destruct (specWrapLoop measureText maxWidth (a :: text)) as [line lines].
        simpl in *. unfold specWrapStep.
        destruct (Qle_bool _ _ || isEmptyLine line); simpl; [exact IHl|].
        apply Forall_app. split; [exact IHl | constructor; [exact Hne|constructor]].
    + rewrite length_app. simpl. destruct text as [|a text].
      * rewrite (IHe eq_refl). unfold specWrapStep; simpl.
        rewrite orb_true_r. simpl. split; [discriminate | lia].
      * destruct (IHn ltac:(discriminate)) as [Hne Hlen].
        destruct (specWrapLoop measureText maxWidth (a :: text)) as [line lines].
        simpl in *. unfold specWrapStep.
        destruct (Qle_bool _ _ || isEmptyLine line); simpl.
        -- split; [destruct line; discriminate | lia].
        -- rewrite length_app. simpl. split; [discriminate | lia].
Qed.

(** There is always at least one line; for a non-empty text no line is
    empty and there are at most as many lines as code units. *)
Theorem wrap_no_blank_lines (text : jsstring) :
  (1 <= length (wrapLines measureText text maxWidth))%nat /\
  (text <> [] ->
   Forall (fun l => l <> []) (wrapLines measureText text maxWidth) /\
   (length (wrapLines measureText text maxWidth) <= length text)%nat).
Proof.
  rewrite wrapLines_fold.
  destruct (specWrapLoop_shape text) as (Hl & _ & Hn).
  destruct (specWrapLoop measureText maxWidth text) as [line lines]. simpl in *.
  rewrite length_app. simpl. split; [lia|].
  intros Hne. destruct (Hn Hne) as [Hline Hlen].
  split; [|lia].
  apply Forall_app. split; [exact Hl | constructor; [exact Hline|constructor]].
Qed.

Lemma specWrapLoop_forced (text : jsstring) :
  forcedBreaks measureText maxWidth
    (fst (specWrapLoop measureText maxWidth text)
     :: rev (snd (specWrapLoop measureText maxWidth text))).
Proof.
  induction text as [|c text IH] using rev_ind; [exact I|].
  rewrite specWrapLoop_snoc.
  destruct (specWrapLoop_shape text) as (_ & He & Hn).
  destruct text as [|a text].
  - rewrite (He eq_refl). unfold specWrapStep; simpl. rewrite orb_true_r. exact I.
  - destruct (Hn ltac:(discriminate)) as [Hne _].
    destruct (specWrapLoop measureText maxWidth (a :: text)) as [line lines].
    simpl in *. unfold specWrapStep.
    destruct (Qle_bool (measureText (line ++ [c])) maxWidth) eqn:E.
    + simpl. destruct (rev lines) as [|p older]; [exact I|].
      destruct IH as [(c0 & r & Hline & Hbreak) Hold].
      split; [|exact Hold].
      exists c0, (r ++ [c]). rewrite Hline. split; [reflexivity | exact Hbreak].
    + destruct line as [|l0 line]; [congruence|]. simpl.
      rewrite rev_app_distr. simpl. split; [|exact IH].
      exists c, []. split; [reflexivity|].
      intros Hfit. apply Qle_bool_iff in Hfit. simpl in E. congruence.
Qed.

Lemma forcedBreaks_at (front : list jsstring) :
  forall (b a : jsstring) (back : list jsstring),
    forcedBreaks measureText maxWidth (front ++ b :: a :: back) ->
    exists c r, b = c :: r /\ ~ measureText (a ++ [c]) <= maxWidth.
Proof.
  induction front as [|f front IH]; intros b a back H.
  - simpl in H. destruct H as [H _]. exact H.
  - apply (IH b a back).
    simpl in H. destruct (front ++ b :: a :: back) eqn:E.
    + destruct front; discriminate E.
    + destruct H as [_ H]. exact H.
Qed.

(** The wrap is greedy: wherever a line is followed by another, the
    following line is not empty and its first code unit did not fit at the
    end of the line before it. *)
Theorem wrap_breaks_are_forced (text : jsstring) (before : list jsstring)
    (a b : jsstring) (after : list jsstring) :
  wrapLines measureText text maxWidth = before ++ a :: b :: after ->
  exists c r, b = c :: r /\ ~ measureText (a ++ [c]) <= maxWidth.
Proof.
  intros Hsplit.
  pose proof (specWrapLoop_forced text) as H.
  rewrite wrapLines_fold in Hsplit.
  destruct (specWrapLoop measureText maxWidth text) as [line lines].
  simpl in Hsplit. cbn [fst snd] in H.
  assert (Hrev : line :: rev lines = rev after ++ b :: a :: rev before).
  { change (line :: rev lines) with (rev [line] ++ rev lines).
    rewrite <- rev_app_distr, Hsplit, rev_app_distr. simpl.
    rewrite <- !app_assoc. reflexivity. }
  rewrite Hrev in H. exact (forcedBreaks_at (rev after) b a (rev before) H).
Qed.

Lemma specWrapStep_fold_extends (more : jsstring) :
  forall (line : jsstring) (lines : list jsstring),
    exists ext rest,
      snd (fold_left (specWrapStep measureText maxWidth) more (line, lines))
      ++ [fst (fold_left (specWrapStep measureText maxWidth) more (line, lines))]
      = lines ++ (line ++ ext) :: rest.
Proof.
  induction more as [|c more IH]; intros line lines.
  - exists [], []. simpl. rewrite app_nil_r. reflexivity.
  - cbn [fold_left].
    destruct (specWrapStep measureText maxWidth (line, lines) c) as [l1 ls1] eqn:E.
    unfold specWrapStep in E.
    destruct (Qle_bool _ _ || isEmptyLine line); inversion E; subst l1 ls1; clear E.
    + destruct (IH (line ++ [c]) lines) as (ext & rest & H).
      exists ([c] ++ ext), rest. rewrite H, <- app_assoc. reflexivity.
    + destruct (IH [c] (lines ++ [line])) as (ext & rest & H).
      exists [], (([c] ++ ext) :: rest).
      rewrite H, <- app_assoc, app_nil_r. reflexivity.
Qed.

(** Text added at the end never changes the lines already completed: the
    lines of the longer text start with all lines of the shorter one but the
    last, and continue with a line that extends that last line. *)
Theorem wrap_appending_keeps_lines (text more : jsstring) :
  exists ext rest,
    wrapLines measureText (text ++ more) maxWidth
    = removelast (wrapLines measureText text maxWidth)
      ++ (last (wrapLines measureText text maxWidth) [] ++ ext) :: rest.
Proof.
  rewrite !wrapLines_fold. unfold specWrapLoop. rewrite fold_left_app.
  destruct (fold_left (specWrapStep measureText maxWidth) text ([], []))
    as [line lines].
  destruct (specWrapStep_fold_extends more line lines) as (ext & rest & H).
  exists ext, rest.
  rewrite removelast_last, last_last.
  destruct (fold_left (specWrapStep measureText maxWidth) more (line, lines))
    as [line' lines'].
  exact H.
Qed.

(** When every single code unit fits within [maxWidth], every line of a
    non-empty text fits: nothing is drawn wider than [maxWidth]. *)
Theorem wrap_no_overflow (text : jsstring) :
  (forall c, measureText [c] <= maxWidth) ->
  text <> [] ->
  Forall (fun l => measureText l <= maxWidth) (wrapLines measureText text maxWidth).
Proof.
  intros Hunit Hne. rewrite wrapLines_fold.
  destruct (specWrapLoop_settled measureText maxWidth text) as (Hls & Hl & _).
  specialize (Hl Hne).
  destruct (specWrapLoop measureText maxWidth text) as [line lines]. simpl in *.
  assert (Hfit : forall l, settled measureText maxWidth l -> measureText l <= maxWidth).
  { intros l [H|H]; [exact H|].
    destruct l as [|c [|d l]]; try discriminate H. apply Hunit. }
  apply Forall_app. split.
  - eapply Forall_impl; [exact Hfit | exact Hls].
  - constructor; [apply Hfit; exact Hl | constructor].
Qed.

End WrapMore.

Lemma wrap_no_blank_lines_witness :
  Forall (fun l => l <> [])
         (wrapLines (fixedAdvance 200) [1; 2; 3; 4; 5]%N (PREVIEW_SIZE * (9 # 10))).
Proof.
  apply (proj2 (wrap_no_blank_lines (fixedAdvance 200) (PREVIEW_SIZE * (9 # 10))
                  [1; 2; 3; 4; 5]%N)).
  discriminate.
Defined.

Lemma wrap_breaks_are_forced_witness :
  exists c r, [3; 4]%N = c :: r /\
              ~ fixedAdvance 200 ([1; 2]%N ++ [c]) <= PREVIEW_SIZE * (9 # 10).
Proof.
  apply (wrap_breaks_are_forced (fixedAdvance 200) (PREVIEW_SIZE * (9 # 10))
           [1; 2; 3; 4; 5]%N [] [1; 2]%N [3; 4]%N [[5%N]]).
  reflexivity.
Defined.

Lemma wrap_no_overflow_witness :
  Forall (fun l => fixedAdvance 200 l <= PREVIEW_SIZE * (9 # 10))
         (wrapLines (fixedAdvance 200) [1; 2; 3; 4; 5]%N (PREVIEW_SIZE * (9 # 10))).
Proof.
  apply (wrap_no_overflow (fixedAdvance 200) (PREVIEW_SIZE * (9 # 10)) [1; 2; 3; 4; 5]%N).
  - intros c. vm_compute. discriminate.
  - discriminate.
Defined.

(** The wrapping [MemePreview] makes exactly the calls of the earlier,
    unwrapped one if and only if the text wraps to a single line. *)
Theorem wrapped_equals_unwrapped_iff_one_line (measureText : jsstring -> Q)
    (canvasWidth canvasHeight : Q) (text : jsstring) (fontSize textYOffset : Q) :
  MemePreview_drawText measureText canvasWidth canvasHeight text fontSize textYOffset
  = MemePreview_drawText_unwrapped canvasWidth canvasHeight text fontSize textYOffset
  <-> length (wrapLines measureText text (canvasWidth * (9 # 10))) = 1%nat.
Proof.
  unfold MemePreview_drawText, MemePreview_drawText_unwrapped, wrapText.
  split.
  - intros H. apply (f_equal (@length DrawCall)) in H.
    rewrite drawLoop_length in H. simpl in H. lia.
  - intros Hone.
    pose proof (wrapLines_concat measureText (canvasWidth * (9 # 10)) text) as Hcat.
    destruct (wrapLines measureText text (canvasWidth * (9 # 10))) as [|l [|l' ls]];
      try discriminate Hone.
    simpl in Hcat. rewrite app_nil_r in Hcat. subst l. reflexivity.
Qed.

Lemma wrapped_equals_unwrapped_iff_one_line_witness :
  MemePreview_drawText (fixedAdvance 51) PREVIEW_SIZE PREVIEW_SIZE defaultText 51 30
  = MemePreview_drawText_unwrapped PREVIEW_SIZE PREVIEW_SIZE defaultText 51 30.
Proof.
  apply (proj2 (wrapped_equals_unwrapped_iff_one_line (fixedAdvance 51)
                  PREVIEW_SIZE PREVIEW_SIZE defaultText 51 30)).
  reflexivity.
Defined.

(** * The floating preview against the main preview *)

Lemma Qgt_bool_scaled (k a b a' b' : Q) :
  0 < k -> a' == k * a -> b' == k * b -> Qgt_bool a' b' = Qgt_bool a b.
Proof.
  intros Hk Ha Hb. unfold Qgt_bool. f_equal.
  destruct (Qle_bool a b) eqn:E.
  - apply Qle_bool_iff in E. apply Qle_bool_iff. rewrite Ha, Hb.
    apply Qmult_le_l; assumption.
  - destruct (Qle_bool a' b') eqn:E'; [|reflexivity].
    apply Qle_bool_iff in E'. rewrite Ha, Hb in E'.
    apply Qmult_le_l in E'; [|exact Hk].
    apply Qle_bool_iff in E'. congruence.
Qed.

Lemma wrapLoop_same_tests (m1 m2 : jsstring -> Q) (w1 w2 : Q) :
  (forall t, Qgt_bool (m1 t) w1 = Qgt_bool (m2 t) w2) ->
  forall characters n line lines,
    wrapLoop m1 w1 n characters line lines = wrapLoop m2 w2 n characters line lines.
Proof.
  intros Hsame characters.
  induction characters as [|c rest IH]; intros n line lines; [reflexivity|].
  simpl. rewrite Hsame.
  destruct (Qgt_bool (m2 (line ++ [c])) w2 && (0 <? n)%nat); apply IH.
Qed.

Lemma drawLoop_scaled (k : Q) (lines : list jsstring) (tx tx' lh lh' : Q) (n : nat) :
  tx' == k * tx -> lh' == k * lh ->
  forall ty ty', ty' == k * ty ->
    Forall2 call_eq (drawLoop lines tx' lh' n ty')
                    (map (scaleCall k) (drawLoop lines tx lh n ty)).
Proof.
  intros Hx Hl. induction n as [|i IH]; intros ty ty' Hy; simpl.
  - constructor.
  - constructor; [simpl; repeat split; assumption|].
    constructor; [simpl; repeat split; assumption|].
    apply IH. rewrite Hy, Hl. ring.
Qed.

(** If text widths scale with the font size, the floating preview breaks
    the text into exactly the lines of the main preview and makes the same
    calls with every coordinate multiplied by 176/512. *)
Theorem floating_preview_is_scaled_preview (measureFont : Q -> jsstring -> Q)
    (text : jsstring) (fontSize textYOffset : Q) :
  (forall s, measureFont (fontSize * scaleFactor) s == scaleFactor * measureFont fontSize s) ->
  wrapLines (measureFont (fontSize * scaleFactor)) text (Floating_PREVIEW_SIZE * (9 # 10))
  = wrapLines (measureFont fontSize) text (PREVIEW_SIZE * (9 # 10)) /\
  Forall2 call_eq
    (FloatingPreview_drawText (measureFont (fontSize * scaleFactor))
       Floating_PREVIEW_SIZE Floating_PREVIEW_SIZE text fontSize textYOffset)
    (map (scaleCall scaleFactor)
       (MemePreview_drawText (measureFont fontSize)
          PREVIEW_SIZE PREVIEW_SIZE text fontSize textYOffset)).
Proof.
  intros Hscale.
  assert (Hlines :
    wrapLines (measureFont (fontSize * scaleFactor)) text (Floating_PREVIEW_SIZE * (9 # 10))
    = wrapLines (measureFont fontSize) text (PREVIEW_SIZE * (9 # 10))).
  { unfold wrapLines.
    rewrite (wrapLoop_same_tests (measureFont (fontSize * scaleFactor))
               (measureFont fontSize) (Floating_PREVIEW_SIZE * (9 # 10))
               (PREVIEW_SIZE * (9 # 10))); [reflexivity|].
    intros t. apply (Qgt_bool_scaled scaleFactor).
    - reflexivity.
    - apply Hscale.
    - reflexivity. }
  split; [exact Hlines|].
  unfold FloatingPreview_drawText, MemePreview_drawText, wrapText.
  rewrite Hlines.
  apply drawLoop_scaled.
  - reflexivity.
  - ring.
  - unfold Floating_PREVIEW_SIZE, PREVIEW_SIZE, scaleFactor, BASE_SIZE,
      Floating_PREVIEW_SIZE. field.
Qed.

Lemma floating_preview_is_scaled_preview_witness :
  wrapLines (fixedAdvance (51 * scaleFactor)) defaultText (Floating_PREVIEW_SIZE * (9 # 10))
  = wrapLines (fixedAdvance 51) defaultText (PREVIEW_SIZE * (9 # 10)).
Proof.
  apply (floating_preview_is_scaled_preview (fun n => fixedAdvance n) defaultText 51 30).
  intros s. unfold fixedAdvance. ring.
Defined.

(** * The preview effects *)

Lemma strokes_of_drawLoop (lines : list jsstring) (tx lh : Q) (k : nat) :
  forall ty, length (filter isStroke (map Text (drawLoop lines tx lh k ty))) = k.
Proof. induction k as [|i IH]; intros ty; simpl; [reflexivity|]. rewrite IH. reflexivity. Qed.

(** [MemePreview] draws the image and strokes overlay text only when the
    canvas, a non-empty source and a crop of non-zero width and height are
    all present and the image has loaded. *)
Theorem preview_draws_only_when_loaded (measureFont : Q -> jsstring -> Q)
    (hasCanvas : bool) (canvasWidth canvasHeight : Q) (imageSrc : option string)
    (crop : option Rect) (outcome : LoadOutcome) (text : jsstring)
    (fontSize textYOffset : Q) :
  let ops := MemePreview_effect measureFont hasCanvas canvasWidth canvasHeight
               imageSrc crop outcome text fontSize textYOffset in
  existsb isDrawImage ops = true \/ existsb isStroke ops = true ->
  hasCanvas = true /\ srcPresent imageSrc = true /\ cropMissing crop = false /\
  outcome = Loaded.
Proof.
  intros ops. unfold ops, MemePreview_effect.
  destruct hasCanvas; simpl; [|intros [H|H]; discriminate H].
  destruct (srcPresent imageSrc); simpl; [|intros [H|H]; discriminate H].
  destruct (cropMissing crop) eqn:Hc; simpl; [intros [H|H]; discriminate H|].
  destruct crop as [c|]; [|discriminate Hc].
  destruct outcome; simpl; intros [H|H]; try discriminate H; repeat split.
Qed.

Lemma preview_draws_only_when_loaded_witness :
  srcPresent (Some "data:image/png;base64,AA"%string) = true /\
  cropMissing (Some (mkRect 250 250 250 250)) = false.
Proof.
  pose proof (preview_draws_only_when_loaded (fun n => fixedAdvance n) true
                PREVIEW_SIZE PREVIEW_SIZE (Some "data:image/png;base64,AA"%string)
                (Some (mkRect 250 250 250 250)) Loaded defaultText 51 30) as H.
  cbv zeta in H. destruct H as (_ & Hs & Hc & _); [left; reflexivity|].
  split; assumption.
Defined.

(** Once the image has loaded, [MemePreview] clears the canvas, draws the
    crop rectangle exactly once over the whole canvas, and only then draws
    text: one stroke per wrapped line, and every text call comes after the
    image. *)
Theorem preview_image_below_text (measureFont : Q -> jsstring -> Q)
    (canvasWidth canvasHeight : Q) (imageSrc : option string) (c : Rect)
    (text : jsstring) (fontSize textYOffset : Q) :
  srcPresent imageSrc = true -> cropMissing (Some c) = false ->
  let ops := MemePreview_effect measureFont true canvasWidth canvasHeight
               imageSrc (Some c) Loaded text fontSize textYOffset in
  filter isDrawImage ops
  = [DrawImage (x c) (y c) (width c) (height c) 0 0 canvasWidth canvasHeight] /\
  length (filter isStroke ops)
  = length (wrapLines (measureFont fontSize) text (canvasWidth * (9 # 10))) /\
  (forall before t after, ops = before ++ Text t :: after ->
                          existsb isDrawImage before = true).
Proof.
  intros Hsrc Hcrop ops. unfold ops, MemePreview_effect.
  rewrite Hsrc, Hcrop. cbn [negb orb app].
  split; [|split].
  - cbn [filter isDrawImage]. f_equal.
    assert (H : forall calls, filter isDrawImage (map Text calls) = []).
    { induction calls as [|d calls IH]; [reflexivity | exact IH]. }
    apply H.
  - cbn [filter isStroke]. unfold MemePreview_drawText, wrapText.
    apply strokes_of_drawLoop.
  - intros before t after H.
    destruct before as [|b0 before]; [discriminate H|]. injection H as <- H.
    destruct before as [|b1 before]; [discriminate H|]. injection H as <- H.
    destruct before as [|b2 before]; [discriminate H|]. injection H as <- H.
    reflexivity.
Qed.

Lemma preview_image_below_text_witness :
  length (filter isStroke
            (MemePreview_effect (fun n => fixedAdvance n) true PREVIEW_SIZE PREVIEW_SIZE
               (Some "data:image/png;base64,AA"%string) (Some (mkRect 250 250 250 250))
               Loaded defaultText 51 30))
  = 1%nat.
Proof.
  pose proof (preview_image_below_text (fun n => fixedAdvance n)
                PREVIEW_SIZE PREVIEW_SIZE (Some "data:image/png;base64,AA"%string)
                (mkRect 250 250 250 250) defaultText 51 30 eq_refl eq_refl) as H.
  cbv zeta in H. destruct H as (_ & Hn & _).
  rewrite Hn. reflexivity.
Defined.

(** [FloatingPreview] touches its canvas exactly when the canvas, a
    non-empty source and a crop of non-zero size are present and the image
    has loaded; a failed load leaves it untouched, where [MemePreview] writes
    its error message. *)
Theorem floating_preview_all_or_nothing (measureFont : Q -> jsstring -> Q)
    (hasCanvas : bool) (canvasWidth canvasHeight : Q) (imageSrc : option string)
    (crop : option Rect) (outcome : LoadOutcome) (text : jsstring)
    (fontSize textYOffset : Q) :
  (FloatingPreview_effect measureFont hasCanvas canvasWidth canvasHeight
     imageSrc crop outcome text fontSize textYOffset <> []
   <-> hasCanvas = true /\ srcPresent imageSrc = true /\ cropMissing crop = false /\
       outcome = Loaded) /\
  (hasCanvas = true -> srcPresent imageSrc = true -> cropMissing crop = false ->
   FloatingPreview_effect measureFont hasCanvas canvasWidth canvasHeight
     imageSrc crop Failed text fontSize textYOffset = [] /\
   last (MemePreview_effect measureFont hasCanvas canvasWidth canvasHeight
           imageSrc crop Failed text fontSize textYOffset) (SetTextAlign "center")
   = Text (FillText (literal "Error loading image")
                    (canvasWidth / 2) (canvasHeight / 2))).
Proof.
  unfold FloatingPreview_effect, MemePreview_effect. split.
  - destruct hasCanvas, (srcPresent imageSrc), (cropMissing crop) eqn:Hc; simpl;
      try (split; [congruence | intros (H1 & H2 & H3 & H4); discriminate]).
    destruct crop as [c|]; [|discriminate Hc].
    destruct outcome; simpl;
      split; try congruence; try discriminate;
      try (intros (_ & _ & _ & H); discriminate H); intros _; repeat split.
  - intros -> -> Hc. rewrite Hc. simpl.
    destruct crop as [c|]; [|discriminate Hc].
    split; reflexivity.
Qed.

Lemma floating_preview_all_or_nothing_witness :
  FloatingPreview_effect (fun n => fixedAdvance n) true
    Floating_PREVIEW_SIZE Floating_PREVIEW_SIZE
    (Some "data:image/png;base64,AA"%string) (Some (mkRect 250 250 250 250))
    Failed defaultText 51 30 = [].
Proof.
  apply (proj2 (floating_preview_all_or_nothing (fun n => fixedAdvance n) true
                  Floating_PREVIEW_SIZE Floating_PREVIEW_SIZE
                  (Some "data:image/png;base64,AA"%string)
                  (Some (mkRect 250 250 250 250)) Loaded defaultText 51 30));
    reflexivity.
Defined.

(** * From the cropper to the previews *)

(** A selection of positive width and height under positive scale factors
    is reported once the image is complete, as a rectangle of positive
    width and height, so no preview falls back to its placeholder for it;
    nothing is reported while the image is incomplete or the width is not
    positive. *)
Theorem reported_crop_is_drawable (s : Cropper) :
  (0 < width (cropBox s) -> 0 < height (cropBox s) ->
   0 < px (scale s) -> 0 < py (scale s) ->
   exists r,
     cropChangeEffect true s = Some r /\
     r = convertDisplayToSourceCrop (scale s) (imageOffset s) (cropBox s) /\
     0 < width r /\ 0 < height r /\ cropMissing (Some r) = false) /\
  cropChangeEffect false s = None /\
  (width (cropBox s) <= 0 -> forall complete, cropChangeEffect complete s = None).
Proof.
  unfold cropChangeEffect. split; [|split].
  - intros Hw Hh Hsx Hsy.
    assert (Hgt : Qgt_bool (width (cropBox s)) 0 = true).
    { unfold Qgt_bool. apply negb_true_iff.
      destruct (Qle_bool (width (cropBox s)) 0) eqn:E; [|reflexivity].
      apply Qle_bool_iff in E. lra. }
    rewrite Hgt. simpl.
    eexists. split; [reflexivity|]. split; [reflexivity|].
    assert (H1 : 0 < width (cropBox s) * px (scale s))
      by (apply Qmult_lt_0_compat; assumption).
    assert (H2 : 0 < height (cropBox s) * py (scale s))
      by (apply Qmult_lt_0_compat; assumption).
    simpl. repeat split; try assumption.
    rewrite (Qeq_zero_pos _ H1), (Qeq_zero_pos _ H2). reflexivity.
  - rewrite andb_false_r. reflexivity.
  - intros Hw complete. apply Qgt_bool_false in Hw. rewrite Hw. reflexivity.
Qed.

Lemma reported_crop_is_drawable_witness :
  exists r, cropChangeEffect true scenarioLoaded = Some r /\ 0 < width r.
Proof.
  destruct (proj1 (reported_crop_is_drawable scenarioLoaded))
    as (r & Hr & _ & Hw & _); try reflexivity.
  exists r. split; assumption.
Defined.

(** When the image is rendered with its natural aspect ratio, a square
    selection converts to a square source rectangle, so the square output is
    not distorted. *)
Theorem square_selection_square_source (img : ImgEl) (c : Container) (s : Cropper)
    (r : Rect) :
  0 < clientWidth img -> 0 < clientHeight img ->
  naturalWidth img * clientHeight img == naturalHeight img * clientWidth img ->
  cropSquare r ->
  let s' := handleImageLoad img (Some c) s in
  px (scale s') == py (scale s') /\
  cropSquare (convertDisplayToSourceCrop (scale s') (imageOffset s') r).
Proof.
  intros Hw Hh Haspect Hsq s'. unfold s'.
  rewrite (handleImageLoad_loaded img c s Hw Hh).
  unfold cropSquare, convertDisplayToSourceCrop in *. simpl.
  assert (Hs : naturalWidth img / clientWidth img == naturalHeight img / clientHeight img).
  { apply (Qmult_inj_r _ _ (clientWidth img * clientHeight img)).
    - intros H0. assert (0 < clientWidth img * clientHeight img)
        by (apply Qmult_lt_0_compat; assumption). lra.
    - transitivity (naturalWidth img * clientHeight img); [field; lra|].
      rewrite Haspect. field. lra. }
  split; [exact Hs|]. rewrite Hs, Hsq. reflexivity.
Qed.

Lemma square_selection_square_source_witness :
  cropSquare (convertDisplayToSourceCrop (scale scenarioLoaded)
                (imageOffset scenarioLoaded) (mkRect 100 140 100 100)).
Proof.
  apply (square_selection_square_source scenarioImg scenarioContainer initialCropper
           (mkRect 100 140 100 100)); reflexivity.
Defined.

(** * Image load before layout *)

(** An image load without a container, or with a rendered width or height
    of zero, changes nothing: the scale factors are not recomputed, so no
    division by a zero size takes place, and the selection stays. *)
Theorem handleImageLoad_not_laid_out (img : ImgEl) (container : option Container)
    (s : Cropper) :
  container = None \/ clientWidth img == 0 \/ clientHeight img == 0 ->
  handleImageLoad img container s = s.
Proof.
  intros H. unfold handleImageLoad.
  destruct container as [c|]; [|reflexivity].
  destruct H as [H|[H|H]]; [discriminate H | |];
    apply Qeq_bool_iff in H; unfold Qeq_zero; rewrite H;
    rewrite ?orb_true_r; reflexivity.
Qed.

Lemma handleImageLoad_not_laid_out_witness :
  handleImageLoad (mkImg 1000 800 0 0) (Some scenarioContainer) initialCropper
  = initialCropper.
Proof.
  apply (handleImageLoad_not_laid_out (mkImg 1000 800 0 0) (Some scenarioContainer)
           initialCropper).
  right. left. reflexivity.
Defined.
